(** * A fixed-capacity overwrite-on-full ring buffer (ringbuffer.h / ringbuffer.c)

    Shallow embedding of the two revisions of the C ring buffer:
    - V1.0.0 ([ringbuffer.c]) wraps indices with [& (RING_BUFFER_SIZE - 1)];
    - V2.0.0 (inlined in [ringbuffer.h]) wraps them with [% RING_BUFFER_SIZE]
      and adds [ring_buffer_peek].

    [unsigned] is a 32-bit word: a [Z] reduced modulo [2^32] after every
    arithmetic operation.  The storage array is a list updated by index; an
    access outside the array (undefined behaviour in C) makes the operation
    return [None]. *)

From Stdlib Require Import ZArith Lia.
From stdpp Require Import base option list.

Local Open Scope Z_scope.

(** ** Machine words *)

Definition UINT_MODULUS : Z := 2 ^ 32.

(** Reduction of an arithmetic result to [unsigned]. *)
Definition wrap (x : Z) : Z := x mod UINT_MODULUS.

(** [#define RING_BUFFER_SIZE 4].  The operations below take the capacity as
    a parameter [N]; the source instantiates it with this constant. *)
Definition RING_BUFFER_SIZE : Z := 4.

(** The preprocessor guard
    [#if !(RING_BUFFER_SIZE && !(RING_BUFFER_SIZE & (RING_BUFFER_SIZE-1)))]. *)
Definition size_check (N : Z) : bool :=
  negb (N =? 0) && (Z.land N (N - 1) =? 0).

(** ** The structure *)

(** [typedef unsigned ring_buffer_t] *)
Abbreviation ring_buffer_t := Z (only parsing).

Record Ring_Buffer : Type := mkRB {
  front : Z;
  back  : Z;
  data  : list ring_buffer_t
}.

(** ** Array accesses *)

(** [d[i]] as an rvalue. *)
Definition load (d : list ring_buffer_t) (i : Z) : option ring_buffer_t :=
  if bool_decide (0 <= i) then d !! Z.to_nat i else None.

(** [d[i] = v]. *)
Definition store (d : list ring_buffer_t) (i : Z) (v : ring_buffer_t)
  : option (list ring_buffer_t) :=
  if bool_decide (0 <= i < Z.of_nat (length d))
  then Some (<[Z.to_nat i := v]> d)
  else None.

(** [memset(d, 0, sizeof(ring_buffer_t) * N)] on an array of [N] slots. *)
Definition zeroed (N : Z) : list ring_buffer_t := replicate (Z.to_nat N) 0.

(** What a call hands back to its caller. *)
Inductive answer : Type :=
| AVoid
| AData (v : ring_buffer_t)
| AUnsigned (n : Z)
| AFlag (b : bool).

(** ** Revision 2.0.0: modulo wrap-around, with peek *)

Module V2.
Section Ops.
Variable N : Z.

Definition ring_buffer_init (rb : Ring_Buffer) : Ring_Buffer :=
  {| front := 0; back := 0; data := zeroed N |}.

Definition ring_buffer_clear (rb : Ring_Buffer) : Ring_Buffer :=
  {| front := back rb; back := back rb; data := zeroed N |}.

(** [rb->data[(++rb->back) % RING_BUFFER_SIZE] = var;] *)
Definition ring_buffer_put (rb : Ring_Buffer) (var : ring_buffer_t)
  : option Ring_Buffer :=
  let b := wrap (back rb + 1) in
  d ← store (data rb) (b mod N) var;
  Some {| front := front rb; back := b; data := d |}.

(** The shared prologue of get and peek:
    [if(rb->back - rb->front >= RING_BUFFER_SIZE)
       rb->front = rb->back - RING_BUFFER_SIZE;] *)
Definition resync (rb : Ring_Buffer) : Z :=
  if N <=? wrap (back rb - front rb)
  then wrap (back rb - N)
  else front rb.

(** [return rb->data[(++rb->front) % RING_BUFFER_SIZE];] *)
Definition ring_buffer_get (rb : Ring_Buffer)
  : option (ring_buffer_t * Ring_Buffer) :=
  let f := wrap (resync rb + 1) in
  v ← load (data rb) (f mod N);
  Some (v, {| front := f; back := back rb; data := data rb |}).

(** [return rb->data[(rb->front+1) % RING_BUFFER_SIZE];] *)
Definition ring_buffer_peek (rb : Ring_Buffer)
  : option (ring_buffer_t * Ring_Buffer) :=
  let f := resync rb in
  v ← load (data rb) (wrap (f + 1) mod N);
  Some (v, {| front := f; back := back rb; data := data rb |}).

Definition ring_buffer_full (rb : Ring_Buffer) : bool :=
  N <=? wrap (back rb - front rb).

Definition ring_buffer_empty (rb : Ring_Buffer) : bool :=
  back rb =? front rb.

Definition ring_buffer_count (rb : Ring_Buffer) : Z :=
  if ring_buffer_full rb then N else wrap (back rb - front rb).

(** *** Call sequences *)

Inductive op : Type :=
| Init | Clear | Put (var : ring_buffer_t) | Get | Peek | Count | Full | Empty.

(** One call: the value handed back to the caller and the buffer after
    the call; [None] when the call leaves the array. *)
Definition step (o : op) (rb : Ring_Buffer) : option (answer * Ring_Buffer) :=
  match o with
  | Init => Some (AVoid, ring_buffer_init rb)
  | Clear => Some (AVoid, ring_buffer_clear rb)
  | Put var => rb' ← ring_buffer_put rb var; Some (AVoid, rb')
  | Get => '(v, rb') ← ring_buffer_get rb; Some (AData v, rb')
  | Peek => '(v, rb') ← ring_buffer_peek rb; Some (AData v, rb')
  | Count => Some (AUnsigned (ring_buffer_count rb), rb)
  | Full => Some (AFlag (ring_buffer_full rb), rb)
  | Empty => Some (AFlag (ring_buffer_empty rb), rb)
  end.

Fixpoint run (ops : list op) (rb : Ring_Buffer)
  : option (list answer * Ring_Buffer) :=
  match ops with
  | [] => Some ([], rb)
  | o :: ops' =>
      '(a, rb1) ← step o rb;
      '(outs, rb2) ← run ops' rb1;
      Some (a :: outs, rb2)
  end.

(** The buffer right after [ring_buffer_init] (its argument is a
    zero-initialised global in the driver; init overwrites every field). *)
Definition fresh : Ring_Buffer :=
  ring_buffer_init {| front := 0; back := 0; data := zeroed N |}.

Definition reachable (rb : Ring_Buffer) : Prop :=
  ∃ ops outs, run ops fresh = Some (outs, rb).

(** The caller's discipline of the driver's drain loop
    [while(!ring_buffer_empty(&rb)) ... ring_buffer_get(&rb)]:
    every get is issued on a buffer that reports non-empty. *)
Fixpoint guarded (ops : list op) (rb : Ring_Buffer) : bool :=
  match ops with
  | [] => true
  | o :: ops' =>
      match o with
      | Get => negb (ring_buffer_empty rb)
      | _ => true
      end &&
      match step o rb with
      | Some (_, rb') => guarded ops' rb'
      | None => true
      end
  end.

(** How many puts a call sequence contains. *)
Fixpoint count_puts (ops : list op) : nat :=
  match ops with
  | [] => O
  | Put _ :: ops' => S (count_puts ops')
  | _ :: ops' => count_puts ops'
  end.

(** The stored values between the cursors, oldest first: the slots of the
    absolute positions [front+1 .. back]. *)
Definition contents (rb : Ring_Buffer) : list ring_buffer_t :=
  (λ p, default 0 (data rb !! Z.to_nat (p mod N)))
    <$> seqZ (front rb + 1) (back rb - front rb).

(** The driver's loop
    [while(!ring_buffer_empty(&rb)) printf("%d ", ring_buffer_get(&rb));]:
    the values printed, in order, and the buffer the loop leaves. [fuel]
    bounds the number of iterations; the result is [None] when the bound is
    reached before the buffer reports empty, or when a get leaves the
    array. *)
Fixpoint drain (fuel : nat) (rb : Ring_Buffer)
  : option (list ring_buffer_t * Ring_Buffer) :=
  if ring_buffer_empty rb then Some ([], rb)
  else
    match fuel with
    | O => None
    | S fuel' =>
        '(v, rb1) ← ring_buffer_get rb;
        '(vs, rb2) ← drain fuel' rb1;
        Some (v :: vs, rb2)
    end.

(** The slots of the last [min (back - front) N] absolute positions up to
    the write cursor, oldest first: what is still physically present. *)
Definition queued (rb : Ring_Buffer) : list ring_buffer_t :=
  let m := Z.min (wrap (back rb - front rb)) N in
  (λ i, default 0 (data rb !! Z.to_nat (wrap (back rb - m + i) mod N)))
    <$> seqZ 1 m.
End Ops.
End V2.

(** ** Revision 1.0.0: mask wrap-around, no peek *)

Module V1.
Section Ops.
Variable N : Z.

Definition ring_buffer_init (rb : Ring_Buffer) : Ring_Buffer :=
  {| front := 0; back := 0; data := zeroed N |}.

Definition ring_buffer_clear (rb : Ring_Buffer) : Ring_Buffer :=
  {| front := back rb; back := back rb; data := zeroed N |}.

(** [rb->data[(++rb->back) & (RING_BUFFER_SIZE - 1)] = var;] *)
Definition ring_buffer_put (rb : Ring_Buffer) (var : ring_buffer_t)
  : option Ring_Buffer :=
  let b := wrap (back rb + 1) in
  d ← store (data rb) (Z.land b (N - 1)) var;
  Some {| front := front rb; back := b; data := d |}.

Definition resync (rb : Ring_Buffer) : Z :=
  if N <=? wrap (back rb - front rb)
  then wrap (back rb - N)
  else front rb.

(** [return rb->data[(++rb->front) & (RING_BUFFER_SIZE - 1)];] *)
Definition ring_buffer_get (rb : Ring_Buffer)
  : option (ring_buffer_t * Ring_Buffer) :=
  let f := wrap (resync rb + 1) in
  v ← load (data rb) (Z.land f (N - 1));
  Some (v, {| front := f; back := back rb; data := data rb |}).

Definition ring_buffer_full (rb : Ring_Buffer) : bool :=
  N <=? wrap (back rb - front rb).

Definition ring_buffer_empty (rb : Ring_Buffer) : bool :=
  back rb =? front rb.

Definition ring_buffer_count (rb : Ring_Buffer) : Z :=
  if ring_buffer_full rb then N else wrap (back rb - front rb).
Inductive op : Type :=
| Init | Clear | Put (var : ring_buffer_t) | Get | Count | Full | Empty.

Definition step (o : op) (rb : Ring_Buffer) : option (answer * Ring_Buffer) :=
  match o with
  | Init => Some (AVoid, ring_buffer_init rb)
  | Clear => Some (AVoid, ring_buffer_clear rb)
  | Put var => rb' ← ring_buffer_put rb var; Some (AVoid, rb')
  | Get => '(v, rb') ← ring_buffer_get rb; Some (AData v, rb')
  | Count => Some (AUnsigned (ring_buffer_count rb), rb)
  | Full => Some (AFlag (ring_buffer_full rb), rb)
  | Empty => Some (AFlag (ring_buffer_empty rb), rb)
  end.

Fixpoint run (ops : list op) (rb : Ring_Buffer)
  : option (list answer * Ring_Buffer) :=
  match ops with
  | [] => Some ([], rb)
  | o :: ops' =>
      '(a, rb1) ← step o rb;
      '(outs, rb2) ← run ops' rb1;
      Some (a :: outs, rb2)
  end.

Definition fresh : Ring_Buffer :=
  ring_buffer_init {| front := 0; back := 0; data := zeroed N |}.

(** The driver's loop
    [while(!ring_buffer_empty(&rb)) printf("%d ", ring_buffer_get(&rb));]
    over this revision; [fuel] bounds the number of iterations. *)
Fixpoint drain (fuel : nat) (rb : Ring_Buffer)
  : option (list ring_buffer_t * Ring_Buffer) :=
  if ring_buffer_empty rb then Some ([], rb)
  else
    match fuel with
    | O => None
    | S fuel' =>
        '(v, rb1) ← ring_buffer_get rb;
        '(vs, rb2) ← drain fuel' rb1;
        Some (v :: vs, rb2)
    end.
End Ops.

(** Every V1 call exists in V2 under the same name. *)
Definition to_V2 (o : op) : V2.op :=
  match o with
  | Init => V2.Init | Clear => V2.Clear | Put var => V2.Put var
  | Get => V2.Get | Count => V2.Count | Full => V2.Full | Empty => V2.Empty
  end.
End V1.

(** ** The queue the buffer implements

    The file header describes the module as a simple FIFO queue on which
    put performs no check and overwrites the oldest data instead. This is
    that queue, as a list with the oldest value first; reading from the
    empty queue is not defined. *)

Module FIFO.
Section Model.
Variable N : Z.

Definition put (q : list ring_buffer_t) (var : ring_buffer_t)
  : list ring_buffer_t :=
  drop (length q + 1 - Z.to_nat N) (q ++ [var]).

Definition step (o : V2.op) (q : list ring_buffer_t)
  : option (answer * list ring_buffer_t) :=
  match o with
  | V2.Init => Some (AVoid, [])
  | V2.Clear => Some (AVoid, [])
  | V2.Put var => Some (AVoid, put q var)
  | V2.Get => match q with v :: q' => Some (AData v, q') | [] => None end
  | V2.Peek => match q with v :: _ => Some (AData v, q) | [] => None end
  | V2.Count => Some (AUnsigned (Z.of_nat (length q)), q)
  | V2.Full => Some (AFlag (Z.of_nat (length q) =? N), q)
  | V2.Empty => Some (AFlag (match q with [] => true | _ => false end), q)
  end.

Fixpoint run (ops : list V2.op) (q : list ring_buffer_t)
  : option (list answer * list ring_buffer_t) :=
  match ops with
  | [] => Some ([], q)
  | o :: ops' =>
      '(a, q1) ← step o q;
      '(outs, q2) ← run ops' q1;
      Some (a :: outs, q2)
  end.
End Model.
End FIFO.

(** ** Well-formed buffers *)

(** Both cursors are 32-bit words and the array has [N] slots. *)
Record wf (N : Z) (rb : Ring_Buffer) : Prop := mk_wf {
  wf_front : 0 <= front rb < UINT_MODULUS;
  wf_back : 0 <= back rb < UINT_MODULUS;
  wf_data : length (data rb) = Z.to_nat N
}.

(** The unsigned difference [rb->back - rb->front]. *)
Definition distance (rb : Ring_Buffer) : Z := wrap (back rb - front rb).

(** * Properties *)

(** ** Word arithmetic *)

Lemma UINT_MODULUS_eq : UINT_MODULUS = 4294967296.
Proof. reflexivity. Qed.

Ltac word :=
  unfold distance, wrap in *; rewrite ?UINT_MODULUS_eq in *;
  Z.to_euclidean_division_equations; lia.

Lemma wrap_range x : 0 <= wrap x < UINT_MODULUS.
Proof. apply Z.mod_pos_bound. reflexivity. Qed.

Lemma wrap_small x : 0 <= x < UINT_MODULUS -> wrap x = x.
Proof. apply Z.mod_small. Qed.

Lemma mask_is_mod k x : 0 <= k -> Z.land x (2 ^ k - 1) = x mod 2 ^ k.
Proof.
  intros Hk. rewrite <- Z.land_ones by assumption.
  now rewrite Z.ones_equiv, <- Z.sub_1_r.
Qed.

Lemma mask_range N x : 0 < N -> 0 <= x -> 0 <= Z.land x (N - 1) < N.
Proof.
  intros HN Hx. split.
  - apply Z.land_nonneg. now left.
  - assert (Z.land x (N - 1) <= N - 1); [|lia].
    rewrite <- (Z2N.id x), <- (Z2N.id (N - 1)), <- N2Z.inj_land by lia.
    apply N2Z.inj_le, N.land_le_r.
Qed.

(** ** Array accesses inside the array succeed *)

Lemma load_in_range N d i :
  length d = Z.to_nat N -> 0 <= i < N -> is_Some (load d i).
Proof.
  intros Hd Hi. unfold load. rewrite bool_decide_eq_true_2 by lia.
  apply lookup_lt_is_Some. lia.
Qed.

Lemma store_in_range N d i v :
  length d = Z.to_nat N -> 0 <= i < N ->
  store d i v = Some (<[Z.to_nat i := v]> d).
Proof.
  intros Hd Hi. unfold store. now rewrite bool_decide_eq_true_2 by lia.
Qed.

Lemma wf_fresh N : wf N (V2.fresh N).
Proof.
  split; simpl; rewrite ?UINT_MODULUS_eq; try lia.
  unfold zeroed. now rewrite length_replicate.
Qed.

Lemma wf_clear N rb : wf N rb -> wf N (V2.ring_buffer_clear N rb).
Proof.
  intros [Hf Hb Hd]. split; simpl; try assumption.
  unfold zeroed. now rewrite length_replicate.
Qed.

(** ** Every call stays inside the array *)

Section InBounds.
Variable N : Z.
Hypothesis HN : 0 < N.

Lemma V2_put_total rb var :
  length (data rb) = Z.to_nat N ->
  V2.ring_buffer_put N rb var =
    Some {| front := front rb; back := wrap (back rb + 1);
            data := <[Z.to_nat (wrap (back rb + 1) mod N) := var]> (data rb) |}.
Proof.
  intros Hd. unfold V2.ring_buffer_put; cbn zeta.
  rewrite (store_in_range N) by (trivial; now apply Z.mod_pos_bound).
  reflexivity.
Qed.

Lemma V2_get_total rb :
  length (data rb) = Z.to_nat N ->
  exists v,
    load (data rb) (wrap (V2.resync N rb + 1) mod N) = Some v /\
    V2.ring_buffer_get N rb =
      Some (v, {| front := wrap (V2.resync N rb + 1); back := back rb;
                  data := data rb |}).
Proof.
  intros Hd. unfold V2.ring_buffer_get; cbn zeta.
  assert (Hi : 0 <= wrap (V2.resync N rb + 1) mod N < N)
    by now apply Z.mod_pos_bound.
  destruct (load_in_range N (data rb) _ Hd Hi) as [v Hv].
  exists v. now rewrite Hv.
Qed.

Lemma V2_peek_total rb :
  length (data rb) = Z.to_nat N ->
  exists v,
    load (data rb) (wrap (V2.resync N rb + 1) mod N) = Some v /\
    V2.ring_buffer_peek N rb =
      Some (v, {| front := V2.resync N rb; back := back rb;
                  data := data rb |}).
Proof.
  intros Hd. unfold V2.ring_buffer_peek; cbn zeta.
  assert (Hi : 0 <= wrap (V2.resync N rb + 1) mod N < N)
    by now apply Z.mod_pos_bound.
  destruct (load_in_range N (data rb) _ Hd Hi) as [v Hv].
  exists v. now rewrite Hv.
Qed.

Lemma V1_put_total rb var :
  length (data rb) = Z.to_nat N ->
  V1.ring_buffer_put N rb var =
    Some {| front := front rb; back := wrap (back rb + 1);
            data := <[Z.to_nat (Z.land (wrap (back rb + 1)) (N - 1)) := var]>
                      (data rb) |}.
Proof.
  intros Hd. unfold V1.ring_buffer_put; cbn zeta.
  rewrite (store_in_range N)
    by first [assumption | apply mask_range; [trivial | apply wrap_range]].
  reflexivity.
Qed.

Lemma V1_get_total rb :
  length (data rb) = Z.to_nat N ->
  exists v,
    V1.ring_buffer_get N rb =
      Some (v, {| front := wrap (V1.resync N rb + 1); back := back rb;
                  data := data rb |}).
Proof.
  intros Hd. unfold V1.ring_buffer_get; cbn zeta.
  assert (Hi : 0 <= Z.land (wrap (V1.resync N rb + 1)) (N - 1) < N)
    by (apply mask_range; [trivial | apply wrap_range]).
  destruct (load_in_range N (data rb) _ Hd Hi) as [v Hv].
  exists v. now rewrite Hv.
Qed.

Lemma length_zeroed : length (zeroed N) = Z.to_nat N.
Proof. unfold zeroed. apply length_replicate. Qed.

Lemma V2_step_total o rb :
  length (data rb) = Z.to_nat N ->
  exists a rb', V2.step N o rb = Some (a, rb') /\
                length (data rb') = Z.to_nat N.
Proof.
  intros Hd. destruct o as [| |var| | | | |]; simpl; eauto using length_zeroed.
  - rewrite V2_put_total by trivial. simpl.
    eexists _, _. split; [reflexivity|]. simpl. now rewrite length_insert.
  - destruct (V2_get_total rb Hd) as (v & _ & ->). simpl. eauto.
  - destruct (V2_peek_total rb Hd) as (v & _ & ->). simpl. eauto.
Qed.

Lemma V2_run_total ops : forall rb,
  length (data rb) = Z.to_nat N ->
  exists outs rb', V2.run N ops rb = Some (outs, rb') /\
                   length (data rb') = Z.to_nat N.
Proof.
  induction ops as [|o ops IH]; intros rb Hd; simpl.
  - eauto.
  - destruct (V2_step_total o rb Hd) as (a & rb1 & -> & Hd1). simpl.
    destruct (IH rb1 Hd1) as (outs & rb2 & -> & Hd2). simpl. eauto.
Qed.

Lemma V1_step_total o rb :
  length (data rb) = Z.to_nat N ->
  exists a rb', V1.step N o rb = Some (a, rb') /\
                length (data rb') = Z.to_nat N.
Proof.
  intros Hd. destruct o as [| |var| | | |]; simpl; eauto using length_zeroed.
  - rewrite V1_put_total by trivial. simpl.
    eexists _, _. split; [reflexivity|]. simpl. now rewrite length_insert.
  - destruct (V1_get_total rb Hd) as (v & ->). simpl. eauto.
Qed.

Lemma V1_run_total ops : forall rb,
  length (data rb) = Z.to_nat N ->
  exists outs rb', V1.run N ops rb = Some (outs, rb') /\
                   length (data rb') = Z.to_nat N.
Proof.
  induction ops as [|o ops IH]; intros rb Hd; simpl.
  - eauto.
  - destruct (V1_step_total o rb Hd) as (a & rb1 & -> & Hd1). simpl.
    destruct (IH rb1 Hd1) as (outs & rb2 & -> & Hd2). simpl. eauto.
Qed.
End InBounds.

(** C10: for every buffer whose array has [N] slots, the index computed by
    put, get and peek (modulo in V2, mask in V1) lies in [0, N), so each call
    completes without leaving the array, and so does any call sequence. *)
Theorem accesses_in_bounds N rb var :
  0 < N ->
  length (data rb) = Z.to_nat N ->
  (0 <= wrap (back rb + 1) mod N < N /\
   is_Some (V2.ring_buffer_put N rb var)) /\
  (0 <= wrap (V2.resync N rb + 1) mod N < N /\
   is_Some (V2.ring_buffer_get N rb) /\
   is_Some (V2.ring_buffer_peek N rb)) /\
  (0 <= Z.land (wrap (back rb + 1)) (N - 1) < N /\
   is_Some (V1.ring_buffer_put N rb var)) /\
  (0 <= Z.land (wrap (V1.resync N rb + 1)) (N - 1) < N /\
   is_Some (V1.ring_buffer_get N rb)) /\
  (forall ops, is_Some (V2.run N ops rb)) /\
  (forall ops, is_Some (V1.run N ops rb)).
Proof.
  intros HN Hd. repeat split.
  1, 2, 4, 5: now apply Z.mod_pos_bound.
  - rewrite (V2_put_total N HN) by trivial. eauto.
  - destruct (V2_get_total N HN rb Hd) as (v & _ & ->). eauto.
  - destruct (V2_peek_total N HN rb Hd) as (v & _ & ->). eauto.
  - apply mask_range; [trivial | apply wrap_range].
  - apply mask_range; [trivial | apply wrap_range].
  - rewrite (V1_put_total N HN) by trivial. eauto.
  - apply mask_range; [trivial | apply wrap_range].
  - apply mask_range; [trivial | apply wrap_range].
  - destruct (V1_get_total N HN rb Hd) as (v & ->). eauto.
  - intros ops. destruct (V2_run_total N HN ops rb Hd) as (o & rb' & -> & _).
    eauto.
  - intros ops. destruct (V1_run_total N HN ops rb Hd) as (o & rb' & -> & _).
    eauto.
Qed.

Lemma accesses_in_bounds_witness :
  0 < RING_BUFFER_SIZE /\
  length (data (V2.fresh RING_BUFFER_SIZE)) = Z.to_nat RING_BUFFER_SIZE /\
  is_Some (V2.ring_buffer_put RING_BUFFER_SIZE (V2.fresh RING_BUFFER_SIZE) 10) /\
  is_Some (V1.ring_buffer_put RING_BUFFER_SIZE (V2.fresh RING_BUFFER_SIZE) 10).
Proof.
  assert (H1 : 0 < RING_BUFFER_SIZE) by reflexivity.
  assert (H2 : length (data (V2.fresh RING_BUFFER_SIZE))
               = Z.to_nat RING_BUFFER_SIZE) by reflexivity.
  pose proof (accesses_in_bounds RING_BUFFER_SIZE
                (V2.fresh RING_BUFFER_SIZE) 10 H1 H2) as H.
  split; [exact H1 | split; [exact H2 | split; apply H]].
Defined.

(** C9: clear zeroes the whole array and moves the read cursor onto the
    write cursor, which keeps its value; the buffer then reports empty. The
    two revisions agree. *)
Theorem clear_spec N rb :
  (data (V2.ring_buffer_clear N rb) = replicate (Z.to_nat N) 0 /\
   front (V2.ring_buffer_clear N rb) = back rb /\
   back (V2.ring_buffer_clear N rb) = back rb /\
   V2.ring_buffer_empty (V2.ring_buffer_clear N rb) = true) /\
  (data (V1.ring_buffer_clear N rb) = replicate (Z.to_nat N) 0 /\
   front (V1.ring_buffer_clear N rb) = back rb /\
   back (V1.ring_buffer_clear N rb) = back rb /\
   V1.ring_buffer_empty (V1.ring_buffer_clear N rb) = true).
Proof.
  unfold V2.ring_buffer_empty, V1.ring_buffer_empty; simpl.
  rewrite Z.eqb_refl. repeat split.
Qed.

Lemma count_bounds N rb : 0 < N -> 0 <= V2.ring_buffer_count N rb <= N.
Proof.
  intros HN. unfold V2.ring_buffer_count.
  destruct (V2.ring_buffer_full N rb) eqn:Hfull; [lia|].
  unfold V2.ring_buffer_full in Hfull. apply Z.leb_gt in Hfull.
  pose proof (wrap_range (back rb - front rb)). lia.
Qed.

(** C5: in every state count() lies in [0, N]; it is [N] when full() holds
    and the unsigned difference of the cursors otherwise. *)
Theorem count_in_range N rb :
  0 < N ->
  0 <= V2.ring_buffer_count N rb <= N /\
  (V2.ring_buffer_full N rb = true -> V2.ring_buffer_count N rb = N) /\
  (V2.ring_buffer_full N rb = false ->
   V2.ring_buffer_count N rb = wrap (back rb - front rb)).
Proof.
  intros HN. split; [now apply count_bounds|].
  unfold V2.ring_buffer_count. split; intros ->; reflexivity.
Qed.

Lemma count_in_range_witness :
  0 < RING_BUFFER_SIZE /\
  0 <= V2.ring_buffer_count RING_BUFFER_SIZE (mkRB 0 6 [40; 50; 60; 30])
    <= RING_BUFFER_SIZE.
Proof.
  assert (H : 0 < RING_BUFFER_SIZE) by reflexivity.
  split; [exact H|].
  apply (count_in_range RING_BUFFER_SIZE (mkRB 0 6 [40; 50; 60; 30]) H).
Defined.

(** C1: with capacity 4, six puts of 10..60 on a fresh buffer leave it full
    with count 4, and four gets then return 30, 40, 50, 60 and empty it. *)
Theorem six_puts_keep_last_four :
  let rb6 := {| front := 0; back := 6; data := [40; 50; 60; 30] |} in
  let rb10 := {| front := 6; back := 6; data := [40; 50; 60; 30] |} in
  V2.run RING_BUFFER_SIZE (V2.Put <$> [10; 20; 30; 40; 50; 60])
    (V2.fresh RING_BUFFER_SIZE) = Some (replicate 6 AVoid, rb6) /\
  V2.ring_buffer_full RING_BUFFER_SIZE rb6 = true /\
  V2.ring_buffer_count RING_BUFFER_SIZE rb6 = 4 /\
  V2.run RING_BUFFER_SIZE [V2.Get; V2.Get; V2.Get; V2.Get] rb6
    = Some (AData <$> [30; 40; 50; 60], rb10) /\
  V2.ring_buffer_empty rb10 = true.
Proof. repeat split; vm_compute; reflexivity. Qed.

(** ** Resynchronisation *)

Lemma resync_idempotent N rb :
  0 < N < UINT_MODULUS ->
  V2.resync N {| front := V2.resync N rb; back := back rb; data := data rb |}
  = V2.resync N rb.
Proof.
  intros HN. unfold V2.resync; simpl.
  destruct (N <=? wrap (back rb - front rb)) eqn:E.
  - replace (wrap (back rb - wrap (back rb - N))) with N by word.
    now rewrite Z.leb_refl.
  - now rewrite E.
Qed.

(** C6: peek followed at once by get hands back the same value twice,
    whether or not peek moved the read cursor. *)
Theorem peek_then_get_same N rb :
  0 < N < UINT_MODULUS ->
  length (data rb) = Z.to_nat N ->
  exists v rb1 rb2,
    V2.ring_buffer_peek N rb = Some (v, rb1) /\
    V2.ring_buffer_get N rb1 = Some (v, rb2).
Proof.
  intros HN Hd.
  destruct (V2_peek_total N (proj1 HN) rb Hd) as (v & Hv & Hpeek).
  exists v. eexists. eexists. split; [exact Hpeek|].
  unfold V2.ring_buffer_get; cbn zeta.
  rewrite resync_idempotent by trivial. simpl. rewrite Hv. reflexivity.
Qed.

Lemma peek_then_get_same_witness :
  0 < RING_BUFFER_SIZE < UINT_MODULUS /\
  exists v rb1 rb2,
    V2.ring_buffer_peek RING_BUFFER_SIZE (mkRB 0 6 [40; 50; 60; 30])
      = Some (v, rb1) /\
    V2.ring_buffer_get RING_BUFFER_SIZE rb1 = Some (v, rb2).
Proof.
  assert (H : 0 < RING_BUFFER_SIZE < UINT_MODULUS) by (split; reflexivity).
  split; [exact H|].
  apply (peek_then_get_same RING_BUFFER_SIZE (mkRB 0 6 [40; 50; 60; 30]) H).
  reflexivity.
Defined.

(** C8: a get on a logically empty buffer still advances the read cursor to
    one past the write cursor; the buffer then reports not empty, full, and
    a count of [N]. *)
Theorem get_on_empty_reports_full N rb :
  0 < N < UINT_MODULUS ->
  wf N rb ->
  front rb = back rb ->
  exists v rb',
    V2.ring_buffer_get N rb = Some (v, rb') /\
    front rb' = wrap (back rb + 1) /\
    back rb' = back rb /\
    V2.ring_buffer_empty rb' = false /\
    V2.ring_buffer_full N rb' = true /\
    wrap (back rb' - front rb') = UINT_MODULUS - 1 /\
    V2.ring_buffer_count N rb' = N.
Proof.
  intros HN [Hf Hb Hd] Heq.
  destruct (V2_get_total N (proj1 HN) rb Hd) as (v & _ & Hget).
  assert (Hr : V2.resync N rb = back rb).
  { unfold V2.resync. rewrite Heq, Z.sub_diag.
    replace (N <=? wrap 0) with false; [reflexivity|].
    symmetry. apply Z.leb_gt. change (wrap 0) with 0. lia. }
  rewrite Hr in Hget. eexists _, _. split; [exact Hget|]. simpl.
  assert (Hd1 : wrap (back rb - wrap (back rb + 1)) = UINT_MODULUS - 1) by word.
  assert (Hfull : V2.ring_buffer_full N
            {| front := wrap (back rb + 1); back := back rb; data := data rb |}
          = true).
  { unfold V2.ring_buffer_full; simpl. rewrite Hd1. apply Z.leb_le. lia. }
  repeat split; trivial.
  - unfold V2.ring_buffer_empty; simpl. apply Z.eqb_neq. word.
  - unfold V2.ring_buffer_count. now rewrite Hfull.
Qed.

Lemma get_on_empty_reports_full_witness :
  exists v rb',
    V2.ring_buffer_get RING_BUFFER_SIZE (V2.fresh RING_BUFFER_SIZE)
      = Some (v, rb') /\
    V2.ring_buffer_full RING_BUFFER_SIZE rb' = true /\
    V2.ring_buffer_count RING_BUFFER_SIZE rb' = RING_BUFFER_SIZE.
Proof.
  assert (H : 0 < RING_BUFFER_SIZE < UINT_MODULUS) by (split; reflexivity).
  destruct (get_on_empty_reports_full RING_BUFFER_SIZE
              (V2.fresh RING_BUFFER_SIZE) H (wf_fresh RING_BUFFER_SIZE)
              eq_refl)
    as (v & rb' & Hg & _ & _ & _ & Hfull & _ & Hc).
  exists v, rb'. auto.
Defined.

(** ** The two revisions agree *)

Section MaskVersusModulo.
Variable k : Z.
Hypothesis Hk : 0 <= k.

Lemma V1_put_V2 rb var :
  V1.ring_buffer_put (2 ^ k) rb var = V2.ring_buffer_put (2 ^ k) rb var.
Proof.
  unfold V1.ring_buffer_put, V2.ring_buffer_put.
  now rewrite mask_is_mod.
Qed.

Lemma V1_get_V2 rb :
  V1.ring_buffer_get (2 ^ k) rb = V2.ring_buffer_get (2 ^ k) rb.
Proof.
  unfold V1.ring_buffer_get, V2.ring_buffer_get.
  change (V1.resync (2 ^ k) rb) with (V2.resync (2 ^ k) rb).
  now rewrite mask_is_mod.
Qed.

Lemma V1_step_V2 o rb :
  V1.step (2 ^ k) o rb = V2.step (2 ^ k) (V1.to_V2 o) rb.
Proof.
  destruct o; simpl; try reflexivity.
  - now rewrite V1_put_V2.
  - now rewrite V1_get_V2.
Qed.

Lemma V1_run_V2 ops : forall rb,
  V1.run (2 ^ k) ops rb = V2.run (2 ^ k) (V1.to_V2 <$> ops) rb.
Proof.
  induction ops as [|o ops IH]; intros rb; simpl; [reflexivity|].
  rewrite V1_step_V2.
  destruct (V2.step (2 ^ k) (V1.to_V2 o) rb) as [[a rb1]|]; simpl;
    [|reflexivity].
  now rewrite IH.
Qed.
End MaskVersusModulo.

(** C7: when the capacity is a power of two, masking with [N-1] (V1) and
    reducing modulo [N] (V2) cannot be told apart: from any state, any
    sequence of the calls V1 offers hands back the same values and leaves
    the same cursors and array in both revisions. *)
Theorem mask_and_modulo_agree k ops rb :
  0 <= k ->
  V1.run (2 ^ k) ops rb = V2.run (2 ^ k) (V1.to_V2 <$> ops) rb.
Proof. intros Hk. now apply V1_run_V2. Qed.

Lemma mask_and_modulo_agree_witness :
  0 <= 2 /\
  V1.run (2 ^ 2)
    [V1.Put 10; V1.Put 20; V1.Put 30; V1.Put 40; V1.Put 50; V1.Put 60;
     V1.Full; V1.Count; V1.Get; V1.Get; V1.Get; V1.Get; V1.Empty; V1.Clear]
    (V1.fresh (2 ^ 2))
  = V2.run (2 ^ 2)
      [V2.Put 10; V2.Put 20; V2.Put 30; V2.Put 40; V2.Put 50; V2.Put 60;
       V2.Full; V2.Count; V2.Get; V2.Get; V2.Get; V2.Get; V2.Empty; V2.Clear]
      (V1.fresh (2 ^ 2)).
Proof.
  assert (H : 0 <= 2) by lia.
  split; [exact H|].
  exact (mask_and_modulo_agree 2
    [V1.Put 10; V1.Put 20; V1.Put 30; V1.Put 40; V1.Put 50; V1.Put 60;
     V1.Full; V1.Count; V1.Get; V1.Get; V1.Get; V1.Get; V1.Empty; V1.Clear]
    (V1.fresh (2 ^ 2)) H).
Defined.

(** ** The buffer as a queue *)

Lemma mod_distinct N x y : 0 < N -> 0 < y - x < N -> x mod N <> y mod N.
Proof.
  intros HN Hxy E.
  assert (H : (y - x) mod N = 0).
  { rewrite Zminus_mod, E, Z.sub_diag. now apply Z.mod_0_l, Z.neq_sym, Z.lt_neq. }
  rewrite Z.mod_small in H by lia. lia.
Qed.

Lemma V2_run_cons N o ops rb a rb1 outs rb2 :
  V2.step N o rb = Some (a, rb1) ->
  V2.run N ops rb1 = Some (outs, rb2) ->
  V2.run N (o :: ops) rb = Some (a :: outs, rb2).
Proof. intros H1 H2. simpl. rewrite H1. simpl. now rewrite H2. Qed.

Section Queue.
Variable N : Z.
Hypothesis HN : 0 < N < UINT_MODULUS.

(** A put on a buffer that is not full appends to the stored values. *)
Lemma V2_put_contents rb var :
  wf N rb ->
  front rb <= back rb ->
  back rb - front rb < N ->
  back rb + 1 < UINT_MODULUS ->
  exists rb',
    V2.ring_buffer_put N rb var = Some rb' /\
    V2.contents N rb' = V2.contents N rb ++ [var] /\
    front rb' = front rb /\
    back rb' = back rb + 1 /\
    wf N rb'.
Proof.
  intros [Hf Hb Hd] Hfb Hroom Hmax.
  rewrite (V2_put_total N (proj1 HN)) by trivial.
  rewrite wrap_small by lia.
  eexists. split; [reflexivity|]. simpl.
  assert (Hslot : 0 <= (back rb + 1) mod N < N)
    by (apply Z.mod_pos_bound; lia).
  repeat split; simpl; try lia; [|now rewrite length_insert].
  unfold V2.contents; simpl.
  replace (back rb + 1 - front rb) with ((back rb - front rb) + 1) by lia.
  rewrite seqZ_app, fmap_app by lia. f_equal.
  - apply list_fmap_ext. intros i p Hp.
    apply lookup_seqZ in Hp as [-> Hi].
    rewrite list_lookup_insert_ne; [reflexivity|].
    intros E. apply Z2Nat.inj in E; try lia.
    + symmetry in E. revert E. apply mod_distinct; lia.
    + apply Z.mod_pos_bound; lia.
  - replace (front rb + 1 + (back rb - front rb)) with (back rb + 1) by lia.
    rewrite seqZ_cons, seqZ_nil by lia. simpl.
    rewrite list_lookup_insert_eq by lia. reflexivity.
Qed.

(** A get on a buffer holding between 1 and [N] values removes the oldest. *)
Lemma V2_get_contents rb :
  wf N rb ->
  front rb < back rb ->
  back rb - front rb <= N ->
  exists v rb',
    V2.ring_buffer_get N rb = Some (v, rb') /\
    V2.contents N rb = v :: V2.contents N rb' /\
    front rb' = front rb + 1 /\
    back rb' = back rb /\
    wf N rb'.
Proof.
  intros [Hf Hb Hd] Hfb Hfit.
  destruct (V2_get_total N (proj1 HN) rb Hd) as (v & Hv & Hget).
  assert (Hr : V2.resync N rb = front rb).
  { unfold V2.resync. rewrite (wrap_small (back rb - front rb)) by lia.
    destruct (N <=? back rb - front rb) eqn:E; [|reflexivity].
    apply Z.leb_le in E.
    replace (back rb - N) with (front rb) by lia. apply wrap_small, Hf. }
  rewrite Hr, wrap_small in Hget, Hv by lia.
  eexists _, _. split; [exact Hget|]. simpl.
  repeat split; simpl; try lia; trivial.
  unfold V2.contents; simpl.
  rewrite seqZ_cons by lia. rewrite fmap_cons. f_equal.
  - unfold load in Hv. rewrite bool_decide_eq_true_2 in Hv.
    + now rewrite Hv.
    + apply Z.mod_pos_bound; lia.
  - f_equal. f_equal; lia.
Qed.

Lemma V2_run_puts vs : forall rb,
  wf N rb ->
  front rb <= back rb ->
  back rb - front rb + Z.of_nat (length vs) <= N ->
  back rb + Z.of_nat (length vs) < UINT_MODULUS ->
  exists rb',
    V2.run N (V2.Put <$> vs) rb = Some (replicate (length vs) AVoid, rb') /\
    V2.contents N rb' = V2.contents N rb ++ vs /\
    front rb' = front rb /\
    back rb' = back rb + Z.of_nat (length vs) /\
    wf N rb'.
Proof.
  induction vs as [|v vs IH]; intros rb Hwf Hfb Hroom Hmax;
    cbn [length] in *.
  - exists rb. rewrite app_nil_r, Z.add_0_r. auto.
  - destruct (V2_put_contents rb v) as (rb1 & Hput & Hc1 & Hf1 & Hb1 & Hwf1);
      trivial; try lia.
    destruct (IH rb1) as (rb2 & Hrun & Hc2 & Hf2 & Hb2 & Hwf2);
      trivial; try lia.
    exists rb2. split; [|split; [|split; [|split]]]; trivial; try lia.
    + assert (Hstep : V2.step N (V2.Put v) rb = Some (AVoid, rb1))
        by (simpl; now rewrite Hput).
      exact (V2_run_cons N (V2.Put v) (V2.Put <$> vs) rb AVoid rb1
               (replicate (length vs) AVoid) rb2 Hstep Hrun).
    + rewrite Hc2, Hc1, <- app_assoc. reflexivity.
Qed.

Lemma V2_run_gets n : forall rb,
  wf N rb ->
  back rb - front rb = Z.of_nat n ->
  Z.of_nat n <= N ->
  exists rb',
    V2.run N (replicate n V2.Get) rb
      = Some (AData <$> V2.contents N rb, rb') /\
    front rb' = back rb /\
    back rb' = back rb /\
    wf N rb'.
Proof.
  induction n as [|n IH]; intros rb Hwf Hn Hfit.
  - exists rb. unfold V2.contents. rewrite Hn, seqZ_nil by lia.
    split; [reflexivity|]. split; [lia|]. auto.
  - destruct (V2_get_contents rb) as (v & rb1 & Hget & Hc & Hf1 & Hb1 & Hwf1);
      trivial; try lia.
    destruct (IH rb1) as (rb2 & Hrun & Hf2 & Hb2 & Hwf2); trivial; try lia.
    exists rb2. split; [|split; [|split]]; trivial; try lia.
    rewrite Hc, fmap_cons.
    assert (Hstep : V2.step N V2.Get rb = Some (AData v, rb1))
      by (simpl; now rewrite Hget).
    exact (V2_run_cons N V2.Get (replicate n V2.Get) rb (AData v) rb1
             (AData <$> V2.contents N rb1) rb2 Hstep Hrun).
Qed.
End Queue.

(** C2: [k <= N] puts on a fresh buffer make count() return [k], and [k]
    gets then return the values put, oldest first, leaving the buffer
    empty. *)
Theorem fifo_up_to_capacity N vs :
  0 < N < UINT_MODULUS ->
  Z.of_nat (length vs) <= N ->
  exists rb rb',
    V2.run N (V2.Put <$> vs) (V2.fresh N)
      = Some (replicate (length vs) AVoid, rb) /\
    V2.ring_buffer_count N rb = Z.of_nat (length vs) /\
    V2.run N (replicate (length vs) V2.Get) rb = Some (AData <$> vs, rb') /\
    V2.ring_buffer_empty rb' = true.
Proof.
  intros HN Hk.
  destruct (V2_run_puts N HN vs (V2.fresh N))
    as (rb & Hputs & Hc & Hf & Hb & Hwf);
    simpl; try lia; [apply wf_fresh|].
  simpl in Hc, Hf, Hb.
  destruct (V2_run_gets N HN (length vs) rb)
    as (rb' & Hgets & Hf' & Hb' & _); trivial; try lia.
  rewrite Hc in Hgets.
  exists rb, rb'. repeat split; trivial.
  - unfold V2.ring_buffer_count, V2.ring_buffer_full.
    rewrite Hf, Hb, Z.add_0_l, Z.sub_0_r, wrap_small by lia.
    destruct (N <=? Z.of_nat (length vs)) eqn:E; [|reflexivity].
    apply Z.leb_le in E. lia.
  - unfold V2.ring_buffer_empty. rewrite Hf', Hb'. apply Z.eqb_refl.
Qed.

Lemma fifo_up_to_capacity_witness :
  0 < RING_BUFFER_SIZE < UINT_MODULUS /\
  Z.of_nat (length [10; 20; 30]) <= RING_BUFFER_SIZE /\
  exists rb rb',
    V2.run RING_BUFFER_SIZE (V2.Put <$> [10; 20; 30])
      (V2.fresh RING_BUFFER_SIZE) = Some (replicate 3 AVoid, rb) /\
    V2.ring_buffer_count RING_BUFFER_SIZE rb = 3 /\
    V2.run RING_BUFFER_SIZE (replicate 3 V2.Get) rb
      = Some (AData <$> [10; 20; 30], rb') /\
    V2.ring_buffer_empty rb' = true.
Proof.
  assert (H1 : 0 < RING_BUFFER_SIZE < UINT_MODULUS) by (split; reflexivity).
  assert (H2 : Z.of_nat (length [10; 20; 30]) <= RING_BUFFER_SIZE)
    by (vm_compute; discriminate).
  split; [exact H1|]. split; [exact H2|].
  exact (fifo_up_to_capacity RING_BUFFER_SIZE [10; 20; 30] H1 H2).
Defined.

(** ** Reachable states *)

Lemma resync_range N rb :
  0 <= front rb < UINT_MODULUS -> 0 <= V2.resync N rb < UINT_MODULUS.
Proof.
  intros Hf. unfold V2.resync.
  destruct (N <=? wrap (back rb - front rb)); [apply wrap_range | exact Hf].
Qed.

Lemma wf_step N o rb a rb' :
  wf N rb -> V2.step N o rb = Some (a, rb') -> wf N rb'.
Proof.
  intros [Hf Hb Hd] Hstep.
  destruct o as [| |var| | | | |]; simpl in Hstep.
  - inversion Hstep; subst. apply wf_fresh.
  - inversion Hstep; subst. now apply wf_clear.
  - unfold V2.ring_buffer_put, store in Hstep; cbn zeta in Hstep.
    case_bool_decide; [|discriminate]. inversion Hstep; subst.
    split; simpl; [exact Hf | apply wrap_range | now rewrite length_insert].
  - unfold V2.ring_buffer_get in Hstep; cbn zeta in Hstep.
    destruct (load _ _); [|discriminate]. inversion Hstep; subst.
    split; simpl; [apply wrap_range | exact Hb | exact Hd].
  - unfold V2.ring_buffer_peek in Hstep; cbn zeta in Hstep.
    destruct (load _ _); [|discriminate]. inversion Hstep; subst.
    split; simpl; [now apply resync_range | exact Hb | exact Hd].
  - inversion Hstep; subst. now split.
  - inversion Hstep; subst. now split.
  - inversion Hstep; subst. now split.
Qed.

Lemma V2_run_inv N o ops rb outs rb2 :
  V2.run N (o :: ops) rb = Some (outs, rb2) ->
  exists a rb1 outs',
    V2.step N o rb = Some (a, rb1) /\
    V2.run N ops rb1 = Some (outs', rb2) /\
    outs = a :: outs'.
Proof.
  simpl. destruct (V2.step N o rb) as [[a rb1]|]; [|discriminate]. simpl.
  destruct (V2.run N ops rb1) as [[outs' rb2']|] eqn:Hrun; [|discriminate].
  simpl. intros H. inversion H; subst. exists a, rb1, outs'. auto.
Qed.

Lemma wf_run N ops : forall rb outs rb',
  wf N rb -> V2.run N ops rb = Some (outs, rb') -> wf N rb'.
Proof.
  induction ops as [|o ops IH]; intros rb outs rb' Hwf Hrun.
  - inversion Hrun; subst. exact Hwf.
  - apply V2_run_inv in Hrun as (a & rb1 & outs' & Hstep & Hrun & _).
    eauto using wf_step.
Qed.

Lemma wf_reachable N rb : V2.reachable N rb -> wf N rb.
Proof. intros (ops & outs & Hrun). eauto using wf_run, wf_fresh. Qed.

(** ** The cursor distance *)

(** C3 as stated fails: put never moves the read cursor, so five puts on a
    fresh buffer of capacity 4 leave the cursors 5 apart. *)
Lemma five_puts_exceed_capacity :
  exists rb,
    V2.reachable RING_BUFFER_SIZE rb /\
    ~ (back rb - front rb <= RING_BUFFER_SIZE) /\
    ~ (distance rb <= RING_BUFFER_SIZE).
Proof.
  exists {| front := 0; back := 5; data := [40; 50; 20; 30] |}.
  split; [|split].
  - exists (V2.Put <$> [10; 20; 30; 40; 50]), (replicate 5 AVoid).
    vm_compute. reflexivity.
  - vm_compute. intros H. now apply H.
  - vm_compute. intros H. now apply H.
Qed.

Lemma distance_after_resync N rb :
  0 < N < UINT_MODULUS ->
  wrap (back rb - V2.resync N rb) <= N.
Proof.
  intros HN. unfold V2.resync.
  destruct (N <=? wrap (back rb - front rb)) eqn:E.
  - replace (wrap (back rb - wrap (back rb - N))) with N by word. lia.
  - apply Z.leb_gt in E. lia.
Qed.

Lemma distance_after_get N rb :
  0 < N < UINT_MODULUS ->
  wf N rb ->
  back rb <> front rb ->
  wrap (back rb - wrap (V2.resync N rb + 1)) < N.
Proof.
  intros HN [Hf Hb _] Hne.
  pose proof (distance_after_resync N rb HN) as Hle.
  assert (Hpos : 0 < wrap (back rb - V2.resync N rb)).
  { unfold V2.resync in *.
    destruct (N <=? wrap (back rb - front rb)) eqn:E.
    - replace (wrap (back rb - wrap (back rb - N))) with N by word. lia.
    - word. }
  revert Hle Hpos. generalize (V2.resync N rb). intros r Hle Hpos. word.
Qed.

(** C3, amended: in every reachable state count() is at most [N]; put
    leaves the read cursor where it is; the next read forces it forward, so
    that the unsigned distance of the cursors is at most [N] right after a
    peek and below [N] right after a get on a non-empty buffer. *)
Theorem distance_bounded_after_read N rb :
  0 < N < UINT_MODULUS ->
  V2.reachable N rb ->
  V2.ring_buffer_count N rb <= N /\
  (forall var, exists rb',
     V2.ring_buffer_put N rb var = Some rb' /\
     front rb' = front rb /\ back rb' = wrap (back rb + 1)) /\
  (exists v rb',
     V2.ring_buffer_peek N rb = Some (v, rb') /\ distance rb' <= N) /\
  (V2.ring_buffer_empty rb = false ->
   exists v rb',
     V2.ring_buffer_get N rb = Some (v, rb') /\ distance rb' < N).
Proof.
  intros HN Hreach. pose proof (wf_reachable N rb Hreach) as Hwf.
  pose proof (wf_data N rb Hwf) as Hd.
  split; [|split; [|split]].
  - apply count_bounds. lia.
  - intros var. rewrite (V2_put_total N (proj1 HN)) by trivial.
    eexists. split; [reflexivity|]. simpl. auto.
  - destruct (V2_peek_total N (proj1 HN) rb Hd) as (v & _ & ->).
    eexists _, _. split; [reflexivity|].
    unfold distance; simpl. now apply distance_after_resync.
  - intros Hne. destruct (V2_get_total N (proj1 HN) rb Hd) as (v & _ & ->).
    eexists _, _. split; [reflexivity|].
    unfold distance; simpl. apply distance_after_get; trivial.
    unfold V2.ring_buffer_empty in Hne. now apply Z.eqb_neq.
Qed.

Lemma six_puts_reachable :
  V2.reachable RING_BUFFER_SIZE
    {| front := 0; back := 6; data := [40; 50; 60; 30] |}.
Proof.
  exists (V2.Put <$> [10; 20; 30; 40; 50; 60]), (replicate 6 AVoid).
  vm_compute. reflexivity.
Defined.

Lemma distance_bounded_after_read_witness :
  0 < RING_BUFFER_SIZE < UINT_MODULUS /\
  exists v rb',
    V2.ring_buffer_peek RING_BUFFER_SIZE
      {| front := 0; back := 6; data := [40; 50; 60; 30] |} = Some (v, rb') /\
    distance rb' <= RING_BUFFER_SIZE.
Proof.
  assert (H : 0 < RING_BUFFER_SIZE < UINT_MODULUS) by (split; reflexivity).
  split; [exact H|].
  apply (distance_bounded_after_read RING_BUFFER_SIZE _ H six_puts_reachable).
Defined.

(** ** The order of the cursors *)

(** C4 as stated fails: a get on the fresh (empty) buffer moves the read
    cursor past the write cursor. *)
Lemma get_on_fresh_overtakes :
  exists rb,
    V2.reachable RING_BUFFER_SIZE rb /\ ~ (back rb >= front rb).
Proof.
  exists {| front := 1; back := 0; data := [0; 0; 0; 0] |}. split.
  - exists [V2.Get], [AData 0]. vm_compute. reflexivity.
  - vm_compute. intros H. now apply H.
Qed.

Section Ordered.
Variable N : Z.
Hypothesis HN : 0 < N < UINT_MODULUS.

(** One guarded call keeps the write cursor at or ahead of the read
    cursor, as long as the write cursor does not wrap. *)
Lemma ordered_step o rb a rb' :
  wf N rb ->
  front rb <= back rb ->
  back rb + Z.of_nat (V2.count_puts [o]) < UINT_MODULUS ->
  V2.guarded N [o] rb = true ->
  V2.step N o rb = Some (a, rb') ->
  front rb' <= back rb' /\
  back rb' <= back rb + Z.of_nat (V2.count_puts [o]).
Proof.
  intros [Hf Hb Hd] Hfb Hmax Hg Hstep.
  destruct o as [| |var| | | | |]; simpl in Hstep, Hmax, Hg.
  - inversion Hstep; subst; simpl. lia.
  - inversion Hstep; subst; simpl. lia.
  - rewrite (V2_put_total N (proj1 HN)) in Hstep by trivial.
    inversion Hstep; subst; simpl. rewrite wrap_small; lia.
  - destruct (V2_get_total N (proj1 HN) rb Hd) as (v & _ & Hget).
    rewrite Hget in Hstep. inversion Hstep; subst; simpl.
    assert (Hne : back rb <> front rb).
    { apply Z.eqb_neq. unfold V2.ring_buffer_empty in Hg.
      destruct (back rb =? front rb); [discriminate | reflexivity]. }
    unfold V2.resync. rewrite (wrap_small (back rb - front rb)) by lia.
    destruct (N <=? back rb - front rb) eqn:E.
    + apply Z.leb_le in E.
      rewrite (wrap_small (back rb - N)), wrap_small; lia.
    + rewrite wrap_small; lia.
  - destruct (V2_peek_total N (proj1 HN) rb Hd) as (v & _ & Hpeek).
    rewrite Hpeek in Hstep. inversion Hstep; subst; simpl.
    unfold V2.resync. rewrite (wrap_small (back rb - front rb)) by lia.
    destruct (N <=? back rb - front rb) eqn:E.
    + apply Z.leb_le in E. rewrite wrap_small; lia.
    + lia.
  - inversion Hstep; subst; simpl. lia.
  - inversion Hstep; subst; simpl. lia.
  - inversion Hstep; subst; simpl. lia.
Qed.

Lemma ordered_run ops : forall rb outs rb',
  wf N rb ->
  front rb <= back rb ->
  back rb + Z.of_nat (V2.count_puts ops) < UINT_MODULUS ->
  V2.guarded N ops rb = true ->
  V2.run N ops rb = Some (outs, rb') ->
  front rb' <= back rb'.
Proof.
  induction ops as [|o ops IH]; intros rb outs rb' Hwf Hfb Hmax Hg Hrun.
  - inversion Hrun; subst. exact Hfb.
  - apply V2_run_inv in Hrun as (a & rb1 & outs' & Hstep & Hrun & _).
    assert (Hsplit : V2.count_puts (o :: ops)
                     = (V2.count_puts [o] + V2.count_puts ops)%nat)
      by (destruct o; reflexivity).
    assert (Hg1 : V2.guarded N [o] rb = true /\
                  V2.guarded N ops rb1 = true).
    { simpl in Hg |- *. rewrite Hstep in Hg |- *.
      apply andb_prop in Hg as [-> Hg]. auto. }
    destruct Hg1 as [Hg1 Hg2].
    destruct (ordered_step o rb a rb1) as [Hfb1 Hb1]; trivial; try lia.
    apply (IH rb1 outs' rb'); eauto using wf_step. lia.
Qed.
End Ordered.

(** C4, amended: in every state reached from init() by calls among which
    get() is only issued when empty() is false, and which contain fewer
    than 2^32 puts, the write cursor is at or ahead of the read cursor. *)
Theorem cursors_ordered_when_guarded N ops outs rb :
  0 < N < UINT_MODULUS ->
  Z.of_nat (V2.count_puts ops) < UINT_MODULUS ->
  V2.guarded N ops (V2.fresh N) = true ->
  V2.run N ops (V2.fresh N) = Some (outs, rb) ->
  back rb >= front rb.
Proof.
  intros HN Hputs Hg Hrun.
  apply Z.le_ge.
  apply (ordered_run N HN ops (V2.fresh N) outs rb); trivial.
  - apply wf_fresh.
  - simpl. lia.
Qed.

Lemma cursors_ordered_when_guarded_witness :
  0 < RING_BUFFER_SIZE < UINT_MODULUS /\
  back {| front := 6; back := 6; data := [0; 0; 0; 0] |}
  >= front {| front := 6; back := 6; data := [0; 0; 0; 0] |}.
Proof.
  assert (H : 0 < RING_BUFFER_SIZE < UINT_MODULUS) by (split; reflexivity).
  split; [exact H|].
  apply (cursors_ordered_when_guarded RING_BUFFER_SIZE
           ((V2.Put <$> [10; 20; 30; 40; 50; 60])
            ++ [V2.Full; V2.Count; V2.Peek; V2.Empty;
                V2.Get; V2.Get; V2.Get; V2.Get; V2.Clear])
           (replicate 6 AVoid
            ++ [AFlag true; AUnsigned 4; AData 30; AFlag false; AData 30;
                AData 40; AData 50; AData 60; AVoid])
           {| front := 6; back := 6; data := [0; 0; 0; 0] |} H);
    vm_compute; reflexivity.
Defined.

(** *** Why the bound on the number of puts

    The write cursor is a 32-bit counter: after one put, one get and
    [2^32 - 1] further puts (every get guarded) it has wrapped to 0 while
    the read cursor stands at 1. *)

Lemma guarded_cons N o ops rb a rb1 :
  V2.step N o rb = Some (a, rb1) ->
  match o with V2.Get => negb (V2.ring_buffer_empty rb) | _ => true end
    = true ->
  V2.guarded N ops rb1 = true ->
  V2.guarded N (o :: ops) rb = true.
Proof. intros Hstep Hg Hrest. simpl. now rewrite Hstep, Hg, Hrest. Qed.

Lemma V2_run_only_puts N var n : forall rb,
  0 < N ->
  wf N rb ->
  exists rb',
    V2.run N (replicate n (V2.Put var)) rb = Some (replicate n AVoid, rb') /\
    V2.guarded N (replicate n (V2.Put var)) rb = true /\
    front rb' = front rb /\
    back rb' = wrap (back rb + Z.of_nat n).
Proof.
  intros rb HN. revert rb.
  induction n as [|n IH]; intros rb Hwf.
  - exists rb. repeat split. rewrite Z.add_0_r, wrap_small; [trivial|].
    apply Hwf.
  - assert (Hstep : V2.step N (V2.Put var) rb
                    = Some (AVoid, {| front := front rb;
                                      back := wrap (back rb + 1);
                                      data := <[Z.to_nat (wrap (back rb + 1) mod N)
                                                := var]> (data rb) |})).
    { simpl. rewrite (V2_put_total N HN); [reflexivity | apply Hwf]. }
    destruct (IH _ (wf_step _ _ _ _ _ Hwf Hstep))
      as (rb' & Hrun & Hg & Hf & Hb).
    simpl in Hf, Hb. exists rb'. split; [|split; [|split]].
    + exact (V2_run_cons N (V2.Put var) (replicate n (V2.Put var)) rb AVoid _
               (replicate n AVoid) rb' Hstep Hrun).
    + exact (guarded_cons N (V2.Put var) (replicate n (V2.Put var)) rb AVoid _
               Hstep eq_refl Hg).
    + exact Hf.
    + rewrite Hb. word.
Qed.

Lemma write_cursor_wraps n :
  Z.of_nat n = UINT_MODULUS - 1 ->
  exists outs rb,
    V2.guarded RING_BUFFER_SIZE
      (V2.Put 10 :: V2.Get :: replicate n (V2.Put 20))
      (V2.fresh RING_BUFFER_SIZE) = true /\
    V2.run RING_BUFFER_SIZE
      (V2.Put 10 :: V2.Get :: replicate n (V2.Put 20))
      (V2.fresh RING_BUFFER_SIZE) = Some (outs, rb) /\
    back rb < front rb.
Proof.
  intros Hn.
  set (rb1 := {| front := 0; back := 1; data := [0; 10; 0; 0] |}).
  set (rb2 := {| front := 1; back := 1; data := [0; 10; 0; 0] |}).
  assert (H1 : V2.step RING_BUFFER_SIZE (V2.Put 10) (V2.fresh RING_BUFFER_SIZE)
               = Some (AVoid, rb1)) by reflexivity.
  assert (H2 : V2.step RING_BUFFER_SIZE V2.Get rb1 = Some (AData 10, rb2))
    by reflexivity.
  assert (Hwf : wf RING_BUFFER_SIZE rb2)
    by (eapply wf_step; [eapply wf_step; [apply wf_fresh | exact H1] | exact H2]).
  destruct (V2_run_only_puts RING_BUFFER_SIZE 20 n rb2 eq_refl Hwf)
    as (rb & Hrun & Hg & Hf & Hb).
  exists (AVoid :: AData 10 :: replicate n AVoid), rb.
  split; [|split].
  - apply (guarded_cons _ _ _ _ _ _ H1 eq_refl).
    apply (guarded_cons _ _ _ _ _ _ H2 eq_refl). exact Hg.
  - apply (V2_run_cons _ _ _ _ _ _ _ _ H1).
    apply (V2_run_cons _ _ _ _ _ _ _ _ H2). exact Hrun.
  - rewrite Hf, Hb, Hn. simpl back. simpl front.
    replace (1 + (UINT_MODULUS - 1)) with UINT_MODULUS by lia.
    unfold wrap. rewrite Z.mod_same by discriminate. lia.
Qed.

(** ** The compile-time guard on the capacity *)

Lemma size_check_default : size_check RING_BUFFER_SIZE = true.
Proof. reflexivity. Qed.

(** The preprocessor test accepts exactly the powers of two. *)
Lemma size_check_iff N :
  size_check N = true <-> exists k, 0 <= k /\ N = 2 ^ k.
Proof.
  unfold size_check. rewrite andb_true_iff, negb_true_iff, Z.eqb_neq, Z.eqb_eq.
  split.
  - intros [Hnz Hland].
    assert (Hpos : 0 < N).
    { destruct (Z.lt_trichotomy N 0) as [Hneg|[?|?]]; [|congruence|trivial].
      assert (Z.land N (N - 1) < 0) by (apply Z.land_neg; lia). lia. }
    exists (Z.log2 N). split; [apply Z.log2_nonneg|].
    destruct (Z.log2_spec N Hpos) as [Hlo Hhi].
    destruct (Z.eq_dec N (2 ^ Z.log2 N)) as [|Hne]; [trivial|exfalso].
    assert (Hone : 0 < 2 ^ Z.log2 N)
      by (apply Z.pow_pos_nonneg; [lia | apply Z.log2_nonneg]).
    assert (Hlog : Z.log2 (N - 1) = Z.log2 N).
    { apply Z.log2_unique; [apply Z.log2_nonneg | lia]. }
    assert (Hbit : Z.testbit (Z.land N (N - 1)) (Z.log2 N) = true).
    { rewrite Z.land_spec, Z.bit_log2 by trivial.
      rewrite <- Hlog, Z.bit_log2 by lia. reflexivity. }
    rewrite Hland, Z.bits_0 in Hbit. discriminate.
  - intros (k & Hk & ->). split.
    + apply Z.pow_nonzero; lia.
    + rewrite mask_is_mod by trivial. apply Z.mod_same, Z.pow_nonzero; lia.
Qed.

(** Without the guard the two revisions differ: with three slots the first
    put lands in slot 0 under the mask and in slot 1 under the modulo. *)
Lemma mask_needs_power_of_two :
  size_check 3 = false /\
  V1.ring_buffer_put 3 (V1.fresh 3) 10
    = Some {| front := 0; back := 1; data := [10; 0; 0] |} /\
  V2.ring_buffer_put 3 (V2.fresh 3) 10
    = Some {| front := 0; back := 1; data := [0; 10; 0] |}.
Proof. repeat split. Qed.

(** Every capacity that passes the guard makes the revisions agree. *)
Corollary revisions_agree_under_guard N ops rb :
  size_check N = true ->
  V1.run N ops rb = V2.run N (V1.to_V2 <$> ops) rb.
Proof.
  intros Hcheck. apply size_check_iff in Hcheck as (k & Hk & ->).
  now apply V1_run_V2.
Qed.

(** * Further properties of the operations *)

(** ** The three observers *)

Lemma count_is_min N rb :
  0 < N -> V2.ring_buffer_count N rb = Z.min (distance rb) N.
Proof.
  intros HN. unfold V2.ring_buffer_count, V2.ring_buffer_full, distance.
  destruct (N <=? wrap (back rb - front rb)) eqn:E.
  - apply Z.leb_le in E. lia.
  - apply Z.leb_gt in E. lia.
Qed.

Lemma empty_iff_distance N rb :
  wf N rb -> V2.ring_buffer_empty rb = true <-> distance rb = 0.
Proof.
  intros [Hf Hb _]. unfold V2.ring_buffer_empty. rewrite Z.eqb_eq.
  split; intros H; word.
Qed.

(** X1: empty(), full() and count() agree with one another: the buffer reports
    empty exactly when count() is 0, full exactly when count() is [N], and
    never both. *)
Theorem observers_consistent N rb :
  0 < N ->
  wf N rb ->
  (V2.ring_buffer_empty rb = true <-> V2.ring_buffer_count N rb = 0) /\
  (V2.ring_buffer_full N rb = true <-> V2.ring_buffer_count N rb = N) /\
  (V2.ring_buffer_empty rb = true -> V2.ring_buffer_full N rb = false).
Proof.
  intros HN Hwf.
  rewrite (empty_iff_distance N rb Hwf), (count_is_min N rb HN).
  pose proof (wrap_range (back rb - front rb)) as Hr.
  unfold V2.ring_buffer_full, distance in *.
  rewrite Z.leb_le, Z.leb_gt. lia.
Qed.

Lemma observers_consistent_witness :
  0 < RING_BUFFER_SIZE /\
  (V2.ring_buffer_full RING_BUFFER_SIZE
     {| front := 0; back := 6; data := [40; 50; 60; 30] |} = true <->
   V2.ring_buffer_count RING_BUFFER_SIZE
     {| front := 0; back := 6; data := [40; 50; 60; 30] |} = RING_BUFFER_SIZE).
Proof.
  assert (H : 0 < RING_BUFFER_SIZE) by reflexivity.
  split; [exact H|].
  apply (observers_consistent RING_BUFFER_SIZE
           {| front := 0; back := 6; data := [40; 50; 60; 30] |} H).
  split; simpl; rewrite ?UINT_MODULUS_eq; try lia. reflexivity.
Defined.

(** ** How put and get move count() *)

(** X2: A put raises count() by one until it reaches [N], where it stays. *)
Theorem count_after_put N rb var :
  0 < N < UINT_MODULUS ->
  wf N rb ->
  distance rb < UINT_MODULUS - 1 ->
  exists rb',
    V2.ring_buffer_put N rb var = Some rb' /\
    V2.ring_buffer_count N rb' = Z.min (V2.ring_buffer_count N rb + 1) N.
Proof.
  intros HN [Hf Hb Hd] Hroom.
  rewrite (V2_put_total N (proj1 HN)) by trivial.
  eexists. split; [reflexivity|].
  rewrite !count_is_min by lia.
  assert (Hdist : distance {| front := front rb; back := wrap (back rb + 1);
                              data := <[Z.to_nat (wrap (back rb + 1) mod N)
                                        := var]> (data rb) |}
                  = distance rb + 1).
  { unfold distance in *; simpl. word. }
  rewrite Hdist. lia.
Qed.

Lemma count_after_put_witness :
  0 < RING_BUFFER_SIZE < UINT_MODULUS /\
  exists rb',
    V2.ring_buffer_put RING_BUFFER_SIZE
      {| front := 0; back := 6; data := [40; 50; 60; 30] |} 70 = Some rb' /\
    V2.ring_buffer_count RING_BUFFER_SIZE rb'
    = Z.min (V2.ring_buffer_count RING_BUFFER_SIZE
               {| front := 0; back := 6; data := [40; 50; 60; 30] |} + 1)
        RING_BUFFER_SIZE.
Proof.
  assert (H : 0 < RING_BUFFER_SIZE < UINT_MODULUS) by (split; reflexivity).
  split; [exact H|].
  apply (count_after_put RING_BUFFER_SIZE
           {| front := 0; back := 6; data := [40; 50; 60; 30] |} 70 H).
  - split; simpl; rewrite ?UINT_MODULUS_eq; try lia. reflexivity.
  - reflexivity.
Defined.

(** ** Reading what is physically present *)

Section Reading.
Variable N : Z.
Hypothesis HN : 0 < N < UINT_MODULUS.

(** A get on a buffer that reports non-empty hands back the oldest value
    still present and leaves the rest. *)
Lemma V2_get_queued rb :
  wf N rb ->
  back rb <> front rb ->
  exists v rb',
    V2.ring_buffer_get N rb = Some (v, rb') /\
    V2.queued N rb = v :: V2.queued N rb' /\
    distance rb' = Z.min (distance rb) N - 1 /\
    back rb' = back rb /\
    data rb' = data rb /\
    wf N rb'.
Proof.
  intros Hwf Hne. destruct Hwf as [Hf Hb Hd].
  destruct (V2_get_total N (proj1 HN) rb Hd) as (v & Hv & Hget).
  assert (Hpos : 0 < distance rb) by word.
  assert (Hfront : wrap (V2.resync N rb + 1)
                   = wrap (back rb - Z.min (distance rb) N + 1)).
  { unfold V2.resync, distance.
    destruct (N <=? wrap (back rb - front rb)) eqn:E;
      [apply Z.leb_le in E | apply Z.leb_gt in E]; word. }
  rewrite Hfront in Hv, Hget.
  assert (Hdist : wrap (back rb - wrap (back rb - Z.min (distance rb) N + 1))
                  = Z.min (distance rb) N - 1) by word.
  eexists _, _. split; [exact Hget|].
  split; [|split; [exact Hdist|split; [reflexivity|split; [reflexivity|]]]].
  - unfold V2.queued; simpl. fold (distance rb). rewrite Hdist.
    rewrite (Z.min_l (Z.min (distance rb) N - 1)) by lia.
    rewrite seqZ_cons by lia. rewrite fmap_cons. f_equal.
    + unfold load in Hv. rewrite bool_decide_eq_true_2 in Hv
        by (apply Z.mod_pos_bound; lia).
      now rewrite Hv.
    + replace (seqZ (Z.succ 1) (Z.pred (Z.min (distance rb) N)))
        with (Z.add 1 <$> seqZ 1 (Z.min (distance rb) N - 1))
        by (rewrite fmap_add_seqZ; f_equal; lia).
      rewrite <- list_fmap_compose. apply list_fmap_ext. intros i p _. simpl.
      do 5 f_equal. lia.
  - split; simpl; [apply wrap_range | exact Hb | exact Hd].
Qed.

Lemma queued_empty rb :
  wf N rb -> V2.ring_buffer_empty rb = true -> V2.queued N rb = [].
Proof.
  intros Hwf He. apply (empty_iff_distance N rb Hwf) in He.
  unfold V2.queued. fold (distance rb). rewrite He.
  rewrite Z.min_l by lia. reflexivity.
Qed.

(** The drain loop prints what is physically present and stops with the
    read cursor on the write cursor. *)
Lemma V2_drain_queued fuel : forall rb,
  wf N rb ->
  Z.min (distance rb) N <= Z.of_nat fuel ->
  exists rb',
    V2.drain N fuel rb = Some (V2.queued N rb, rb') /\
    front rb' = back rb /\
    back rb' = back rb /\
    data rb' = data rb.
Proof.
  induction fuel as [|fuel IH]; intros rb Hwf Hfuel.
  - assert (He : V2.ring_buffer_empty rb = true).
    { apply (empty_iff_distance N rb Hwf).
      pose proof (wrap_range (back rb - front rb)). unfold distance in *. lia. }
    exists rb. simpl. rewrite He, queued_empty by trivial.
    unfold V2.ring_buffer_empty in He. apply Z.eqb_eq in He. auto.
  - destruct (V2.ring_buffer_empty rb) eqn:He.
    + exists rb. simpl. rewrite He, queued_empty by trivial.
      unfold V2.ring_buffer_empty in He. apply Z.eqb_eq in He. auto.
    + assert (Hne : back rb <> front rb)
        by (now apply Z.eqb_neq).
      destruct (V2_get_queued rb Hwf Hne)
        as (v & rb1 & Hget & Hq & Hdist & Hb1 & Hd1 & Hwf1).
      destruct (IH rb1 Hwf1) as (rb2 & Hdrain & Hf2 & Hb2 & Hd2); [lia|].
      exists rb2. simpl. rewrite He, Hget. simpl. rewrite Hdrain. simpl.
      rewrite Hq, Hf2, Hb2, Hd2, Hb1, Hd1. auto.
Qed.
End Reading.

(** X4: From any state the driver's drain loop stops within [N] gets: it
    prints count() values, the ones physically present, leaves the buffer
    empty and touches neither the write cursor nor the array. *)
Theorem drain_empties_within_capacity N rb :
  0 < N < UINT_MODULUS ->
  wf N rb ->
  exists vs rb',
    V2.drain N (Z.to_nat N) rb = Some (vs, rb') /\
    vs = V2.queued N rb /\
    Z.of_nat (length vs) = V2.ring_buffer_count N rb /\
    V2.ring_buffer_empty rb' = true /\
    back rb' = back rb /\
    data rb' = data rb.
Proof.
  intros HN Hwf.
  destruct (V2_drain_queued N HN (Z.to_nat N) rb Hwf)
    as (rb' & Hdrain & Hf & Hb & Hd); [lia|].
  exists (V2.queued N rb), rb'.
  split; [exact Hdrain|]. split; [reflexivity|].
  split; [|split; [|split]]; trivial.
  - rewrite count_is_min by lia.
    unfold V2.queued. rewrite length_fmap, length_seqZ. fold (distance rb).
    pose proof (wrap_range (back rb - front rb)). unfold distance in *. lia.
  - unfold V2.ring_buffer_empty. rewrite Hf, Hb. apply Z.eqb_refl.
Qed.

Lemma wf_stale : wf RING_BUFFER_SIZE {| front := 1; back := 0;
                                        data := [40; 50; 60; 30] |}.
Proof. split; simpl; rewrite ?UINT_MODULUS_eq; try lia. reflexivity. Defined.

Lemma drain_empties_within_capacity_witness :
  0 < RING_BUFFER_SIZE < UINT_MODULUS /\
  exists vs rb',
    V2.drain RING_BUFFER_SIZE (Z.to_nat RING_BUFFER_SIZE)
      {| front := 1; back := 0; data := [40; 50; 60; 30] |} = Some (vs, rb') /\
    vs = V2.queued RING_BUFFER_SIZE
           {| front := 1; back := 0; data := [40; 50; 60; 30] |} /\
    Z.of_nat (length vs)
    = V2.ring_buffer_count RING_BUFFER_SIZE
        {| front := 1; back := 0; data := [40; 50; 60; 30] |} /\
    V2.ring_buffer_empty rb' = true /\
    back rb' = 0 /\
    data rb' = [40; 50; 60; 30].
Proof.
  assert (H : 0 < RING_BUFFER_SIZE < UINT_MODULUS) by (split; reflexivity).
  split; [exact H|].
  exact (drain_empties_within_capacity RING_BUFFER_SIZE _ H wf_stale).
Defined.

(** X3: A get on a buffer that reports non-empty lowers count() by exactly
    one, also when it first had to skip overwritten positions. *)
Theorem count_after_get N rb :
  0 < N < UINT_MODULUS ->
  wf N rb ->
  V2.ring_buffer_empty rb = false ->
  exists v rb',
    V2.ring_buffer_get N rb = Some (v, rb') /\
    V2.ring_buffer_count N rb' = V2.ring_buffer_count N rb - 1.
Proof.
  intros HN Hwf He.
  assert (Hne : back rb <> front rb) by (now apply Z.eqb_neq).
  destruct (V2_get_queued N HN rb Hwf Hne)
    as (v & rb' & Hget & _ & Hdist & _).
  exists v, rb'. split; [exact Hget|].
  rewrite !count_is_min by lia. rewrite Hdist. lia.
Qed.

Lemma wf_six_puts : wf RING_BUFFER_SIZE {| front := 0; back := 6;
                                           data := [40; 50; 60; 30] |}.
Proof. split; simpl; rewrite ?UINT_MODULUS_eq; try lia. reflexivity. Defined.

Lemma count_after_get_witness :
  0 < RING_BUFFER_SIZE < UINT_MODULUS /\
  exists v rb',
    V2.ring_buffer_get RING_BUFFER_SIZE
      {| front := 0; back := 6; data := [40; 50; 60; 30] |} = Some (v, rb') /\
    V2.ring_buffer_count RING_BUFFER_SIZE rb'
    = V2.ring_buffer_count RING_BUFFER_SIZE
        {| front := 0; back := 6; data := [40; 50; 60; 30] |} - 1.
Proof.
  assert (H : 0 < RING_BUFFER_SIZE < UINT_MODULUS) by (split; reflexivity).
  split; [exact H|].
  exact (count_after_get RING_BUFFER_SIZE _ H wf_six_puts eq_refl).
Defined.

(** ** Round trip and the unguarded get *)

(** X5: On any empty buffer, wherever its cursors stand (also right before
    they wrap), put followed by get hands back the value put and leaves the
    buffer empty again. *)
Theorem put_then_get_round_trip N rb var :
  0 < N < UINT_MODULUS ->
  wf N rb ->
  V2.ring_buffer_empty rb = true ->
  exists rb1 rb2,
    V2.ring_buffer_put N rb var = Some rb1 /\
    V2.ring_buffer_get N rb1 = Some (var, rb2) /\
    V2.ring_buffer_empty rb2 = true.
Proof.
  intros HN [Hf Hb Hd] He.
  unfold V2.ring_buffer_empty in He. apply Z.eqb_eq in He.
  rewrite (V2_put_total N (proj1 HN)) by trivial.
  set (slot := Z.to_nat (wrap (back rb + 1) mod N)).
  set (rb1 := {| front := front rb; back := wrap (back rb + 1);
                 data := <[slot := var]> (data rb) |}).
  assert (Hd1 : length (data rb1) = Z.to_nat N)
    by (simpl; now rewrite length_insert).
  destruct (V2_get_total N (proj1 HN) rb1 Hd1) as (v & Hv & Hget).
  assert (Hr : V2.resync N rb1 = back rb).
  { unfold V2.resync; simpl. rewrite He.
    destruct (N <=? wrap (wrap (front rb + 1) - front rb)) eqn:E;
      [|reflexivity].
    apply Z.leb_le in E. word. }
  rewrite Hr in Hv, Hget.
  assert (Hslot : 0 <= wrap (back rb + 1) mod N < N)
    by (apply Z.mod_pos_bound; lia).
  unfold load in Hv. rewrite bool_decide_eq_true_2 in Hv by lia.
  simpl in Hv. fold slot in Hv.
  rewrite list_lookup_insert_eq in Hv by (subst slot; lia).
  inversion Hv; subst v.
  eexists _, _. split; [reflexivity|]. split; [exact Hget|].
  unfold V2.ring_buffer_empty; simpl. apply Z.eqb_refl.
Qed.

Lemma wf_about_to_wrap :
  wf RING_BUFFER_SIZE {| front := 4294967295; back := 4294967295;
                         data := [40; 50; 60; 30] |}.
Proof. split; simpl; rewrite ?UINT_MODULUS_eq; try lia. reflexivity. Defined.

Lemma put_then_get_round_trip_witness :
  0 < RING_BUFFER_SIZE < UINT_MODULUS /\
  exists rb1 rb2,
    V2.ring_buffer_put RING_BUFFER_SIZE
      {| front := 4294967295; back := 4294967295; data := [40; 50; 60; 30] |}
      70 = Some rb1 /\
    V2.ring_buffer_get RING_BUFFER_SIZE rb1 = Some (70, rb2) /\
    V2.ring_buffer_empty rb2 = true.
Proof.
  assert (H : 0 < RING_BUFFER_SIZE < UINT_MODULUS) by (split; reflexivity).
  split; [exact H|].
  exact (put_then_get_round_trip RING_BUFFER_SIZE _ 70 H wf_about_to_wrap
           eq_refl).
Defined.

(** X6: A get on an empty buffer makes the next put invisible: after get and
    then put the buffer reports empty with count 0, whereas a put alone
    would have made it report one element. *)
Theorem put_after_unguarded_get_is_lost N rb var :
  0 < N < UINT_MODULUS ->
  wf N rb ->
  V2.ring_buffer_empty rb = true ->
  exists v rb1 rb2,
    V2.ring_buffer_get N rb = Some (v, rb1) /\
    V2.ring_buffer_put N rb1 var = Some rb2 /\
    V2.ring_buffer_empty rb2 = true /\
    V2.ring_buffer_count N rb2 = 0 /\
    V2.drain N (Z.to_nat N) rb2 = Some ([], rb2).
Proof.
  intros HN [Hf Hb Hd] He.
  unfold V2.ring_buffer_empty in He. apply Z.eqb_eq in He.
  destruct (V2_get_total N (proj1 HN) rb Hd) as (v & _ & Hget).
  assert (Hr : V2.resync N rb = back rb).
  { unfold V2.resync. rewrite <- He, Z.sub_diag.
    destruct (N <=? wrap 0) eqn:E; [|reflexivity].
    apply Z.leb_le in E. change (wrap 0) with 0 in E. lia. }
  rewrite Hr in Hget.
  eexists v, _, _. split; [exact Hget|].
  rewrite (V2_put_total N (proj1 HN)) by trivial. simpl.
  split; [reflexivity|].
  assert (Hemp : V2.ring_buffer_empty
            {| front := wrap (back rb + 1); back := wrap (back rb + 1);
               data := <[Z.to_nat (wrap (back rb + 1) mod N) := var]>
                         (data rb) |} = true)
    by (unfold V2.ring_buffer_empty; simpl; apply Z.eqb_refl).
  split; [exact Hemp|]. split.
  - rewrite count_is_min by lia. unfold distance; simpl.
    rewrite Z.sub_diag. change (wrap 0) with 0. lia.
  - destruct (Z.to_nat N); simpl; now rewrite Hemp.
Qed.

Lemma put_after_unguarded_get_is_lost_witness :
  0 < RING_BUFFER_SIZE < UINT_MODULUS /\
  exists v rb1 rb2,
    V2.ring_buffer_get RING_BUFFER_SIZE (V2.fresh RING_BUFFER_SIZE)
      = Some (v, rb1) /\
    V2.ring_buffer_put RING_BUFFER_SIZE rb1 70 = Some rb2 /\
    V2.ring_buffer_empty rb2 = true /\
    V2.ring_buffer_count RING_BUFFER_SIZE rb2 = 0 /\
    V2.drain RING_BUFFER_SIZE (Z.to_nat RING_BUFFER_SIZE) rb2
      = Some ([], rb2).
Proof.
  assert (H : 0 < RING_BUFFER_SIZE < UINT_MODULUS) by (split; reflexivity).
  split; [exact H|].
  exact (put_after_unguarded_get_is_lost RING_BUFFER_SIZE _ 70 H
           (wf_fresh RING_BUFFER_SIZE) eq_refl).
Defined.

(** ** Peek *)

(** X7: Although peek may move the read cursor, no observer tells the
    difference right afterwards: a second peek, get, count(), full() and
    empty() answer as they would have before the peek, and the write cursor
    and the array are untouched. *)
Theorem peek_is_unobservable N rb :
  0 < N < UINT_MODULUS ->
  wf N rb ->
  exists v rb1,
    V2.ring_buffer_peek N rb = Some (v, rb1) /\
    V2.ring_buffer_peek N rb1 = Some (v, rb1) /\
    V2.ring_buffer_get N rb1 = V2.ring_buffer_get N rb /\
    V2.ring_buffer_count N rb1 = V2.ring_buffer_count N rb /\
    V2.ring_buffer_full N rb1 = V2.ring_buffer_full N rb /\
    V2.ring_buffer_empty rb1 = V2.ring_buffer_empty rb /\
    back rb1 = back rb /\
    data rb1 = data rb.
Proof.
  intros HN [Hf Hb Hd].
  destruct (V2_peek_total N (proj1 HN) rb Hd) as (v & Hv & Hpeek).
  eexists v, _. split; [exact Hpeek|].
  pose proof (resync_idempotent N rb HN) as Hidem.
  assert (Hfull : V2.ring_buffer_full N
            {| front := V2.resync N rb; back := back rb; data := data rb |}
          = V2.ring_buffer_full N rb).
  { unfold V2.ring_buffer_full, V2.resync; simpl.
    destruct (N <=? wrap (back rb - front rb)) eqn:E; [|exact E].
    apply Z.leb_le. word. }
  split; [|split; [|split; [|split; [|split]]]]; auto.
  - unfold V2.ring_buffer_peek; cbn zeta. rewrite Hidem. simpl.
    now rewrite Hv.
  - unfold V2.ring_buffer_get; cbn zeta. now rewrite Hidem.
  - unfold V2.ring_buffer_count. rewrite Hfull.
    destruct (V2.ring_buffer_full N rb) eqn:E; [reflexivity|].
    unfold V2.ring_buffer_full in E. unfold V2.resync; simpl. now rewrite E.
  - unfold V2.ring_buffer_empty, V2.resync; simpl.
    destruct (N <=? wrap (back rb - front rb)) eqn:E; [|reflexivity].
    apply Z.leb_le in E.
    replace (back rb =? front rb) with false by (symmetry; apply Z.eqb_neq; word).
    apply Z.eqb_neq. word.
Qed.

Lemma peek_is_unobservable_witness :
  0 < RING_BUFFER_SIZE < UINT_MODULUS /\
  exists v rb1,
    V2.ring_buffer_peek RING_BUFFER_SIZE
      {| front := 0; back := 6; data := [40; 50; 60; 30] |} = Some (v, rb1) /\
    V2.ring_buffer_peek RING_BUFFER_SIZE rb1 = Some (v, rb1) /\
    V2.ring_buffer_get RING_BUFFER_SIZE rb1
    = V2.ring_buffer_get RING_BUFFER_SIZE
        {| front := 0; back := 6; data := [40; 50; 60; 30] |}.
Proof.
  assert (H : 0 < RING_BUFFER_SIZE < UINT_MODULUS) by (split; reflexivity).
  split; [exact H|].
  destruct (peek_is_unobservable RING_BUFFER_SIZE _ H wf_six_puts)
    as (v & rb1 & H1 & H2 & H3 & _).
  exists v, rb1. auto.
Defined.

(** ** Capacities accepted by the compile-time guard *)



Lemma guard_divides N :
  size_check N = true -> N < UINT_MODULUS ->
  0 < N /\ (N | UINT_MODULUS).
Proof.
  intros Hcheck Hlt. apply size_check_iff in Hcheck as (k & Hk & ->).
  assert (Hk32 : k < 32).
  { apply (Z.pow_lt_mono_r_iff 2); [lia | lia | exact Hlt]. }
  split.
  - apply Z.pow_pos_nonneg; lia.
  - exists (2 ^ (32 - k)). unfold UINT_MODULUS.
    rewrite <- Z.pow_add_r by lia. f_equal. lia.
Qed.

Lemma wrap_mod_guard N x : (N | UINT_MODULUS) -> wrap x mod N = x mod N.
Proof. intros Hdiv. unfold wrap. now apply Z.mod_mod_divide. Qed.

(** ** Last-N retention *)

Lemma V2_run_app N ops1 : forall ops2 rb,
  V2.run N (ops1 ++ ops2) rb =
    '(outs1, rb1) ← V2.run N ops1 rb;
    '(outs2, rb2) ← V2.run N ops2 rb1;
    Some (outs1 ++ outs2, rb2).
Proof.
  induction ops1 as [|o ops1 IH]; intros ops2 rb; simpl.
  - destruct (V2.run N ops2 rb) as [[outs2 rb2]|]; reflexivity.
  - destruct (V2.step N o rb) as [[a rb1]|]; simpl; [|reflexivity].
    rewrite IH.
    destruct (V2.run N ops1 rb1) as [[outs1 rb1']|]; simpl; [|reflexivity].
    destruct (V2.run N ops2 rb1') as [[outs2 rb2]|]; reflexivity.
Qed.

Section Retention.
Variable N : Z.
Hypothesis HN : 0 < N < UINT_MODULUS.
Hypothesis Hdiv : (N | UINT_MODULUS).

(** After a run of puts the slot of each of the last [N] positions written
    holds the value put there. *)
Lemma V2_puts_window rb0 vs :
  wf N rb0 ->
  exists outs rb,
    V2.run N (V2.Put <$> vs) rb0 = Some (outs, rb) /\
    wf N rb /\
    front rb = front rb0 /\
    back rb = wrap (back rb0 + Z.of_nat (length vs)) /\
    forall j : nat,
      Z.of_nat (length vs) - N <= Z.of_nat j < Z.of_nat (length vs) ->
      data rb !! Z.to_nat ((back rb0 + Z.of_nat j + 1) mod N) = vs !! j.
Proof.
  intros Hwf0. induction vs as [|v vs IH] using rev_ind.
  - exists [], rb0. simpl. repeat split; try apply Hwf0.
    + rewrite Z.add_0_r, wrap_small; [reflexivity | apply Hwf0].
    + intros j Hj. lia.
  - destruct IH as (outs & rb & Hrun & Hwf & Hf & Hb & Hwin).
    pose proof (wf_data N rb Hwf) as Hd.
    assert (Hslot : wrap (back rb + 1) mod N
                    = (back rb0 + Z.of_nat (length vs) + 1) mod N).
    { rewrite wrap_mod_guard by trivial. rewrite Hb.
      rewrite <- (wrap_mod_guard N (back rb0 + Z.of_nat (length vs) + 1))
        by trivial.
      rewrite <- (wrap_mod_guard N (wrap _ + 1)) by trivial.
      f_equal. word. }
    assert (Hrange : 0 <= (back rb0 + Z.of_nat (length vs) + 1) mod N < N)
      by (apply Z.mod_pos_bound; lia).
    eexists (outs ++ [AVoid]), _. split; [|split; [|split; [|split]]].
    + rewrite fmap_app, V2_run_app, Hrun. simpl.
      rewrite (V2_put_total N (proj1 HN)) by trivial. simpl. reflexivity.
    + split; simpl; [apply Hwf | apply wrap_range |].
      now rewrite length_insert.
    + simpl. exact Hf.
    + simpl. rewrite Hb, length_app. simpl. word.
    + simpl. rewrite Hslot, length_app. simpl. intros j Hj.
      destruct (decide (j = length vs)) as [->|Hne].
      * rewrite list_lookup_insert_eq by lia.
        now rewrite list_lookup_middle.
      * rewrite list_lookup_insert_ne.
        -- rewrite lookup_app_l by lia. apply Hwin. lia.
        -- intros E. apply Z2Nat.inj in E; try lia.
           ++ symmetry in E. revert E. apply mod_distinct; lia.
           ++ apply Z.mod_pos_bound; lia.
Qed.

(** Puts on an empty buffer followed by the drain loop: the loop prints the
    last [N] values put (all of them when there are at most [N]). *)
Lemma V2_puts_drain rb vs :
  wf N rb ->
  V2.ring_buffer_empty rb = true ->
  Z.of_nat (length vs) < UINT_MODULUS ->
  exists outs rb1 rb2,
    V2.run N (V2.Put <$> vs) rb = Some (outs, rb1) /\
    V2.ring_buffer_count N rb1 = Z.min (Z.of_nat (length vs)) N /\
    V2.drain N (Z.to_nat N) rb1
      = Some (drop (length vs - Z.to_nat N) vs, rb2) /\
    V2.ring_buffer_empty rb2 = true.
Proof.
  intros Hwf He Hlen.
  unfold V2.ring_buffer_empty in He. apply Z.eqb_eq in He.
  destruct (V2_puts_window rb vs Hwf)
    as (outs & rb1 & Hrun & Hwf1 & Hf1 & Hb1 & Hwin).
  assert (Hdist : distance rb1 = Z.of_nat (length vs)).
  { unfold distance. rewrite Hf1, Hb1, He. destruct Hwf as [Hf _ _]. word. }
  destruct (V2_drain_queued N HN (Z.to_nat N) rb1 Hwf1)
    as (rb2 & Hdrain & Hf2 & Hb2 & _); [lia|].
  exists outs, rb1, rb2. split; [exact Hrun|]. split; [|split].
  - rewrite count_is_min by lia. now rewrite Hdist.
  - rewrite Hdrain. f_equal. f_equal.
    unfold V2.queued. fold (distance rb1). rewrite Hdist.
    apply list_eq. intros i. rewrite list_lookup_fmap, lookup_drop.
    destruct (decide (Z.of_nat i < Z.min (Z.of_nat (length vs)) N)) as [Hi|Hi].
    + rewrite lookup_seqZ_lt by trivial. simpl.
      rewrite wrap_mod_guard by trivial.
      replace ((back rb1 - Z.min (Z.of_nat (length vs)) N + (1 + Z.of_nat i))
                 mod N)
        with ((back rb + Z.of_nat (length vs - Z.to_nat N + i) + 1) mod N).
      * rewrite Hwin by lia.
        destruct (lookup_lt_is_Some_2 vs (length vs - Z.to_nat N + i))
          as [x Hx]; [lia|].
        now rewrite Hx.
      * rewrite Hb1.
        rewrite <- (wrap_mod_guard N (wrap _ - _ + _)) by trivial.
        rewrite <- (wrap_mod_guard N (back rb + _ + 1)) by trivial.
        f_equal. word.
    + rewrite lookup_seqZ_ge by lia. simpl.
      symmetry. apply lookup_ge_None_2. lia.
  - unfold V2.ring_buffer_empty. rewrite Hf2, Hb2. apply Z.eqb_refl.
Qed.
End Retention.

(** X10: With a capacity that passes the guard, putting fewer than 2^32 values
    into an empty buffer (fresh, cleared or drained, wherever its cursors
    stand) and then running the drain loop prints the last [N] of them in
    the order they were put, or all of them when there are at most [N];
    count() before the loop is the number printed. *)
Theorem puts_then_drain_keeps_last N rb vs :
  size_check N = true ->
  N < UINT_MODULUS ->
  wf N rb ->
  V2.ring_buffer_empty rb = true ->
  Z.of_nat (length vs) < UINT_MODULUS ->
  exists outs rb1 rb2,
    V2.run N (V2.Put <$> vs) rb = Some (outs, rb1) /\
    V2.ring_buffer_count N rb1 = Z.min (Z.of_nat (length vs)) N /\
    V2.drain N (Z.to_nat N) rb1
      = Some (drop (length vs - Z.to_nat N) vs, rb2) /\
    V2.ring_buffer_empty rb2 = true.
Proof.
  intros Hcheck Hlt Hwf He Hlen.
  destruct (guard_divides N Hcheck Hlt) as [Hpos Hdiv].
  apply V2_puts_drain; auto.
Qed.

Lemma puts_then_drain_keeps_last_witness :
  size_check RING_BUFFER_SIZE = true /\
  exists outs rb1 rb2,
    V2.run RING_BUFFER_SIZE (V2.Put <$> [10; 20; 30; 40; 50; 60])
      {| front := 4294967295; back := 4294967295; data := [40; 50; 60; 30] |}
      = Some (outs, rb1) /\
    V2.ring_buffer_count RING_BUFFER_SIZE rb1
      = Z.min (Z.of_nat (length [10; 20; 30; 40; 50; 60])) RING_BUFFER_SIZE /\
    V2.drain RING_BUFFER_SIZE (Z.to_nat RING_BUFFER_SIZE) rb1
      = Some (drop (length [10; 20; 30; 40; 50; 60]
                    - Z.to_nat RING_BUFFER_SIZE)
                [10; 20; 30; 40; 50; 60], rb2) /\
    V2.ring_buffer_empty rb2 = true.
Proof.
  assert (H1 : size_check RING_BUFFER_SIZE = true) by reflexivity.
  assert (H2 : RING_BUFFER_SIZE < UINT_MODULUS) by reflexivity.
  assert (H3 : Z.of_nat (length [10; 20; 30; 40; 50; 60]) < UINT_MODULUS)
    by reflexivity.
  split; [exact H1|].
  exact (puts_then_drain_keeps_last RING_BUFFER_SIZE _
           [10; 20; 30; 40; 50; 60] H1 H2 wf_about_to_wrap eq_refl H3).
Defined.

(** ** The first revision *)

Lemma V1_drain_V2 k fuel : forall rb,
  0 <= k -> V1.drain (2 ^ k) fuel rb = V2.drain (2 ^ k) fuel rb.
Proof.
  induction fuel as [|fuel IH]; intros rb Hk; simpl; [reflexivity|].
  change (V1.ring_buffer_empty rb) with (V2.ring_buffer_empty rb).
  destruct (V2.ring_buffer_empty rb); [reflexivity|].
  rewrite V1_get_V2 by trivial.
  destruct (V2.ring_buffer_get (2 ^ k) rb) as [[v rb1]|]; simpl;
    [|reflexivity].
  now rewrite IH.
Qed.

(** X11: The masked revision keeps the last [N] values as well: under the
    guard, puts on an empty buffer followed by its drain loop print the
    last [N] values put, in order. *)
Theorem V1_puts_then_drain_keeps_last N rb vs :
  size_check N = true ->
  N < UINT_MODULUS ->
  wf N rb ->
  V1.ring_buffer_empty rb = true ->
  Z.of_nat (length vs) < UINT_MODULUS ->
  exists outs rb1 rb2,
    V1.run N (V1.Put <$> vs) rb = Some (outs, rb1) /\
    V1.ring_buffer_count N rb1 = Z.min (Z.of_nat (length vs)) N /\
    V1.drain N (Z.to_nat N) rb1
      = Some (drop (length vs - Z.to_nat N) vs, rb2) /\
    V1.ring_buffer_empty rb2 = true.
Proof.
  intros Hcheck Hlt Hwf He Hlen.
  destruct (guard_divides N Hcheck Hlt) as [Hpos Hdiv].
  destruct (V2_puts_drain N (conj Hpos Hlt) Hdiv rb vs Hwf He Hlen)
    as (outs & rb1 & rb2 & Hrun & Hcount & Hdrain & He2).
  apply size_check_iff in Hcheck as (k & Hk & ->).
  exists outs, rb1, rb2. split; [|split; [|split]].
  - rewrite V1_run_V2 by trivial. rewrite <- list_fmap_compose. exact Hrun.
  - exact Hcount.
  - rewrite V1_drain_V2 by trivial. exact Hdrain.
  - exact He2.
Qed.

Lemma V1_puts_then_drain_keeps_last_witness :
  size_check RING_BUFFER_SIZE = true /\
  exists outs rb1 rb2,
    V1.run RING_BUFFER_SIZE (V1.Put <$> [10; 20; 30; 40; 50; 60])
      (V1.fresh RING_BUFFER_SIZE) = Some (outs, rb1) /\
    V1.ring_buffer_count RING_BUFFER_SIZE rb1
      = Z.min (Z.of_nat (length [10; 20; 30; 40; 50; 60])) RING_BUFFER_SIZE /\
    V1.drain RING_BUFFER_SIZE (Z.to_nat RING_BUFFER_SIZE) rb1
      = Some (drop (length [10; 20; 30; 40; 50; 60]
                    - Z.to_nat RING_BUFFER_SIZE)
                [10; 20; 30; 40; 50; 60], rb2) /\
    V1.ring_buffer_empty rb2 = true.
Proof.
  assert (H1 : size_check RING_BUFFER_SIZE = true) by reflexivity.
  assert (H2 : RING_BUFFER_SIZE < UINT_MODULUS) by reflexivity.
  assert (H3 : Z.of_nat (length [10; 20; 30; 40; 50; 60]) < UINT_MODULUS)
    by reflexivity.
  split; [exact H1|].
  exact (V1_puts_then_drain_keeps_last RING_BUFFER_SIZE _
           [10; 20; 30; 40; 50; 60] H1 H2 (wf_fresh RING_BUFFER_SIZE)
           eq_refl H3).
Defined.

(** ** The buffer as a FIFO queue with overwrite *)

Lemma length_queued N rb :
  length (V2.queued N rb) = Z.to_nat (Z.min (distance rb) N).
Proof. unfold V2.queued. now rewrite length_fmap, length_seqZ. Qed.

Section Refinement.
Variable N : Z.
Hypothesis HN : 0 < N < UINT_MODULUS.
Hypothesis Hdiv : (N | UINT_MODULUS).

(** A put appends to what is present and, on a full buffer, drops the
    oldest value. *)
Lemma V2_put_queued rb var :
  wf N rb ->
  distance rb < UINT_MODULUS - 1 ->
  exists rb',
    V2.ring_buffer_put N rb var = Some rb' /\
    wf N rb' /\
    distance rb' = distance rb + 1 /\
    V2.queued N rb' = FIFO.put N (V2.queued N rb) var.
Proof.
  intros [Hf Hb Hd] Hroom.
  rewrite (V2_put_total N (proj1 HN)) by trivial.
  eexists. split; [reflexivity|].
  assert (Hdist : wrap (wrap (back rb + 1) - front rb) = distance rb + 1)
    by word.
  pose proof (length_queued N rb) as Hlen.
  pose proof (wrap_range (back rb - front rb)) as Hdr. fold (distance rb) in Hdr.
  assert (Hw : 0 <= (back rb + 1) mod N < N) by (apply Z.mod_pos_bound; lia).
  split; [|split].
  - split; simpl; [exact Hf | apply wrap_range | now rewrite length_insert].
  - unfold distance at 1; simpl. exact Hdist.
  - unfold FIFO.put. apply list_eq. intros i. rewrite lookup_drop.
    unfold V2.queued at 1; simpl. rewrite Hdist.
    rewrite wrap_mod_guard by trivial.
    rewrite list_lookup_fmap.
    destruct (decide (Z.of_nat i < Z.min (distance rb + 1) N)) as [Hi|Hi].
    + rewrite lookup_seqZ_lt by trivial. simpl.
      assert (Hs : wrap (wrap (back rb + 1) - Z.min (distance rb + 1) N
                         + (1 + Z.of_nat i)) mod N
                   = (back rb + 2 - Z.min (distance rb + 1) N + Z.of_nat i)
                       mod N).
      { rewrite wrap_mod_guard by trivial.
        rewrite <- (wrap_mod_guard N (wrap _ - _ + _)) by trivial.
        rewrite <- (wrap_mod_guard N (back rb + 2 - _ + _)) by trivial.
        f_equal. word. }
      rewrite Hs.
      destruct (decide (Z.of_nat i = Z.min (distance rb + 1) N - 1))
        as [Hlast|Hlast].
      * replace (back rb + 2 - Z.min (distance rb + 1) N + Z.of_nat i)
          with (back rb + 1) by lia.
        rewrite list_lookup_insert_eq by lia. simpl.
        replace (length (V2.queued N rb) + 1 - Z.to_nat N + i)%nat
          with (length (V2.queued N rb)) by lia.
        now rewrite list_lookup_middle.
      * rewrite list_lookup_insert_ne.
        -- rewrite lookup_app_l by lia.
           remember (length (V2.queued N rb) + 1 - Z.to_nat N + i)%nat
             as idx eqn:Hidx.
           assert (Hidx' : Z.of_nat idx < Z.min (distance rb) N) by lia.
           unfold V2.queued. fold (distance rb).
           rewrite list_lookup_fmap, lookup_seqZ_lt by trivial. simpl.
           rewrite wrap_mod_guard by trivial.
           do 5 f_equal. lia.
        -- intros E. apply Z2Nat.inj in E; try lia.
           ++ symmetry in E. revert E. apply mod_distinct; lia.
           ++ apply Z.mod_pos_bound; lia.
    + rewrite lookup_seqZ_ge by lia. simpl.
      symmetry. apply lookup_ge_None_2. rewrite length_app. simpl. lia.
Qed.
End Refinement.

Lemma FIFO_run_inv N o ops q outs q2 :
  FIFO.run N (o :: ops) q = Some (outs, q2) ->
  exists a q1 outs',
    FIFO.step N o q = Some (a, q1) /\
    FIFO.run N ops q1 = Some (outs', q2) /\
    outs = a :: outs'.
Proof.
  simpl. destruct (FIFO.step N o q) as [[a q1]|]; [|discriminate]. simpl.
  destruct (FIFO.run N ops q1) as [[outs' q2']|] eqn:Hrun; [|discriminate].
  simpl. intros H. inversion H; subst. exists a, q1, outs'. auto.
Qed.

Section Simulation.
Variable N : Z.
Hypothesis HN : 0 < N < UINT_MODULUS.
Hypothesis Hdiv : (N | UINT_MODULUS).

Lemma distance_synced rb :
  wrap (back rb - V2.resync N rb) = Z.min (distance rb) N.
Proof.
  unfold V2.resync, distance.
  destruct (N <=? wrap (back rb - front rb)) eqn:E;
    [apply Z.leb_le in E | apply Z.leb_gt in E]; word.
Qed.

(** A peek on a buffer that reports non-empty hands back the oldest value
    present and keeps them all. *)
Lemma V2_peek_queued rb :
  wf N rb ->
  back rb <> front rb ->
  exists v rb',
    V2.ring_buffer_peek N rb = Some (v, rb') /\
    (exists q, V2.queued N rb = v :: q) /\
    V2.queued N rb' = V2.queued N rb /\
    distance rb' = Z.min (distance rb) N /\
    wf N rb'.
Proof.
  intros Hwf Hne. pose proof Hwf as [Hf Hb Hd].
  destruct (V2_peek_total N (proj1 HN) rb Hd) as (v & Hv & Hpeek).
  destruct (V2_get_total N (proj1 HN) rb Hd) as (v2 & Hv2 & Hget2).
  destruct (V2_get_queued N HN rb Hwf Hne) as (v1 & rb1 & Hget & Hq & _).
  assert (v2 = v) by congruence. assert (v1 = v2) by congruence. subst v1 v2.
  eexists v, _. split; [exact Hpeek|].
  split; [eauto|]. split; [|split].
  - unfold V2.queued; simpl. rewrite distance_synced. fold (distance rb).
    now rewrite (Z.min_l (Z.min (distance rb) N)) by lia.
  - unfold distance at 1; simpl. apply distance_synced.
  - split; simpl; [now apply resync_range | exact Hb | exact Hd].
Qed.

(** Each call the queue defines is answered alike by the buffer. *)
Lemma refine_step o q rb a q' :
  wf N rb ->
  V2.queued N rb = q ->
  distance rb + Z.of_nat (V2.count_puts [o]) < UINT_MODULUS ->
  FIFO.step N o q = Some (a, q') ->
  exists rb',
    V2.step N o rb = Some (a, rb') /\
    wf N rb' /\
    V2.queued N rb' = q' /\
    distance rb' <= distance rb + Z.of_nat (V2.count_puts [o]).
Proof.
  intros Hwf Hq Hroom Hstep.
  pose proof (wrap_range (back rb - front rb)) as Hdr.
  fold (distance rb) in Hdr.
  pose proof (length_queued N rb) as Hlen. rewrite Hq in Hlen.
  assert (Hnonempty : q <> [] -> back rb <> front rb).
  { intros Hq' Heq. apply Hq'. rewrite <- Hq. apply queued_empty; trivial.
    unfold V2.ring_buffer_empty. now apply Z.eqb_eq. }
  destruct o as [| |var| | | | |]; simpl in Hstep, Hroom |- *.
  - inversion Hstep; subst a q'.
    exists (V2.fresh N). split; [reflexivity|].
    split; [apply wf_fresh|]. split.
    + apply queued_empty; [trivial | apply wf_fresh | reflexivity].
    + change (distance (V2.fresh N)) with 0. lia.
  - inversion Hstep; subst a q'.
    eexists. split; [reflexivity|].
    assert (Hwfc := wf_clear N rb Hwf).
    split; [exact Hwfc|]. split.
    + apply queued_empty; trivial.
      unfold V2.ring_buffer_empty; simpl. apply Z.eqb_refl.
    + unfold distance at 1; simpl. rewrite Z.sub_diag.
      change (wrap 0) with 0. lia.
  - inversion Hstep; subst a q'.
    destruct (V2_put_queued N HN Hdiv rb var Hwf)
      as (rb' & -> & Hwf' & Hdist & Hq'); [lia|].
    exists rb'. simpl. rewrite Hq', Hq. repeat split; trivial; try apply Hwf'.
    lia.
  - destruct q as [|v q0]; [discriminate|]. inversion Hstep; subst a q'.
    destruct (V2_get_queued N HN rb Hwf)
      as (v1 & rb' & -> & Hq' & Hdist & _ & _ & Hwf'); [now apply Hnonempty|].
    rewrite Hq in Hq'. inversion Hq'; subst v1 q0.
    exists rb'. simpl. repeat split; trivial; try apply Hwf'. lia.
  - destruct q as [|v q0]; [discriminate|]. inversion Hstep; subst a q'.
    destruct (V2_peek_queued rb Hwf)
      as (v1 & rb' & -> & (q1 & Hq1) & Hq' & Hdist & Hwf');
      [now apply Hnonempty|].
    rewrite Hq in Hq1. inversion Hq1; subst v1 q1.
    exists rb'. simpl. rewrite Hq', Hq.
    repeat split; trivial; try apply Hwf'. lia.
  - inversion Hstep; subst a q'. exists rb. split.
    + rewrite count_is_min by lia. rewrite Hlen. do 3 f_equal. lia.
    + repeat split; trivial; try apply Hwf. lia.
  - inversion Hstep; subst a q'. exists rb. split.
    + unfold V2.ring_buffer_full. fold (distance rb). rewrite Hlen.
      do 3 f_equal.
      destruct (N <=? distance rb) eqn:E;
        [apply Z.leb_le in E; symmetry; apply Z.eqb_eq
        |apply Z.leb_gt in E; symmetry; apply Z.eqb_neq]; lia.
    + repeat split; trivial; try apply Hwf. lia.
  - inversion Hstep; subst a q'. exists rb. split.
    + do 3 f_equal.
      destruct (V2.ring_buffer_empty rb) eqn:E.
      * rewrite <- Hq, queued_empty; trivial.
      * destruct q; [|reflexivity]. exfalso.
        assert (V2.ring_buffer_empty rb = true)
          by (apply (empty_iff_distance N rb Hwf); simpl in Hlen; lia).
        congruence.
    + repeat split; trivial; try apply Hwf. lia.
Qed.

Lemma refine_run ops : forall q rb outs q',
  wf N rb ->
  V2.queued N rb = q ->
  distance rb + Z.of_nat (V2.count_puts ops) < UINT_MODULUS ->
  FIFO.run N ops q = Some (outs, q') ->
  exists rb',
    V2.run N ops rb = Some (outs, rb') /\ V2.queued N rb' = q'.
Proof.
  induction ops as [|o ops IH]; intros q rb outs q' Hwf Hq Hroom Hrun.
  - inversion Hrun; subst. exists rb. auto.
  - apply FIFO_run_inv in Hrun as (a & q1 & outs' & Hstep & Hrun & ->).
    assert (Hsplit : V2.count_puts (o :: ops)
                     = (V2.count_puts [o] + V2.count_puts ops)%nat)
      by (destruct o; reflexivity).
    destruct (refine_step o q rb a q1 Hwf Hq) as
      (rb1 & Hstep1 & Hwf1 & Hq1 & Hd1); trivial; [lia|].
    destruct (IH q1 rb1 outs' q' Hwf1 Hq1) as (rb' & Hrun' & Hq');
      trivial; [lia|].
    exists rb'. split; [|exact Hq'].
    exact (V2_run_cons N o ops rb a rb1 outs' rb' Hstep1 Hrun').
Qed.
End Simulation.

(** X12: With a capacity that passes the guard, the buffer is the FIFO queue of
    its header comment: whatever sequence of calls with fewer than 2^32
    puts is made on a fresh buffer, as long as no get or peek is made while
    the queue is empty, every call hands back what the queue (put appends
    and drops the oldest value beyond [N]; get removes the oldest) would
    hand back, and the values present at the end are the queue's. *)
Theorem ring_buffer_refines_fifo N ops outs q :
  size_check N = true ->
  N < UINT_MODULUS ->
  Z.of_nat (V2.count_puts ops) < UINT_MODULUS ->
  FIFO.run N ops [] = Some (outs, q) ->
  exists rb,
    V2.run N ops (V2.fresh N) = Some (outs, rb) /\
    V2.queued N rb = q.
Proof.
  intros Hcheck Hlt Hputs Hrun.
  destruct (guard_divides N Hcheck Hlt) as [Hpos Hdiv].
  assert (Hq : V2.queued N (V2.fresh N) = [])
    by (apply (queued_empty N (conj Hpos Hlt));
        [apply wf_fresh | reflexivity]).
  assert (Hroom : distance (V2.fresh N) + Z.of_nat (V2.count_puts ops)
                  < UINT_MODULUS)
    by (change (distance (V2.fresh N)) with 0; lia).
  exact (refine_run N (conj Hpos Hlt) Hdiv ops [] (V2.fresh N) outs q
           (wf_fresh N) Hq Hroom Hrun).
Qed.

Lemma ring_buffer_refines_fifo_witness :
  size_check RING_BUFFER_SIZE = true /\
  exists rb,
    V2.run RING_BUFFER_SIZE
      [V2.Put 10; V2.Put 20; V2.Put 30; V2.Put 40; V2.Put 50; V2.Put 60;
       V2.Full; V2.Count; V2.Empty; V2.Peek; V2.Get; V2.Get; V2.Put 70;
       V2.Count; V2.Get; V2.Get; V2.Get; V2.Empty; V2.Clear]
      (V2.fresh RING_BUFFER_SIZE)
    = Some ([AVoid; AVoid; AVoid; AVoid; AVoid; AVoid;
             AFlag true; AUnsigned 4; AFlag false; AData 30; AData 30;
             AData 40; AVoid; AUnsigned 3; AData 50; AData 60; AData 70;
             AFlag true; AVoid], rb) /\
    V2.queued RING_BUFFER_SIZE rb = [].
Proof.
  assert (H1 : size_check RING_BUFFER_SIZE = true) by reflexivity.
  assert (H2 : RING_BUFFER_SIZE < UINT_MODULUS) by reflexivity.
  split; [exact H1|].
  apply (ring_buffer_refines_fifo RING_BUFFER_SIZE _ _ [] H1 H2);
    reflexivity.
Defined.

(** X13: The masked revision is the same queue: under the guard, every sequence
    of its calls with fewer than 2^32 puts and no get on the empty queue is
    answered from a fresh buffer as the queue answers it. *)
Theorem V1_refines_fifo N ops outs q :
  size_check N = true ->
  N < UINT_MODULUS ->
  Z.of_nat (V2.count_puts (V1.to_V2 <$> ops)) < UINT_MODULUS ->
  FIFO.run N (V1.to_V2 <$> ops) [] = Some (outs, q) ->
  exists rb,
    V1.run N ops (V1.fresh N) = Some (outs, rb) /\
    V2.queued N rb = q.
Proof.
  intros Hcheck Hlt Hputs Hrun.
  destruct (guard_divides N Hcheck Hlt) as [Hpos Hdiv].
  assert (Hq0 : V2.queued N (V2.fresh N) = [])
    by (apply (queued_empty N (conj Hpos Hlt));
        [apply wf_fresh | reflexivity]).
  assert (Hroom : distance (V2.fresh N)
                  + Z.of_nat (V2.count_puts (V1.to_V2 <$> ops))
                  < UINT_MODULUS)
    by (change (distance (V2.fresh N)) with 0; lia).
  destruct (refine_run N (conj Hpos Hlt) Hdiv (V1.to_V2 <$> ops) []
              (V2.fresh N) outs q (wf_fresh N) Hq0 Hroom Hrun)
    as (rb & Hrb & Hq).
  exists rb. split; [|exact Hq].
  apply size_check_iff in Hcheck as (k & Hk & ->).
  rewrite V1_run_V2 by trivial. exact Hrb.
Qed.

Lemma V1_refines_fifo_witness :
  size_check RING_BUFFER_SIZE = true /\
  exists rb,
    V1.run RING_BUFFER_SIZE
      [V1.Put 10; V1.Put 20; V1.Put 30; V1.Put 40; V1.Put 50; V1.Put 60;
       V1.Full; V1.Count; V1.Get; V1.Get; V1.Get; V1.Get; V1.Empty; V1.Clear]
      (V1.fresh RING_BUFFER_SIZE)
    = Some ([AVoid; AVoid; AVoid; AVoid; AVoid; AVoid;
             AFlag true; AUnsigned 4; AData 30; AData 40; AData 50; AData 60;
             AFlag true; AVoid], rb) /\
    V2.queued RING_BUFFER_SIZE rb = [].
Proof.
  assert (H1 : size_check RING_BUFFER_SIZE = true) by reflexivity.
  assert (H2 : RING_BUFFER_SIZE < UINT_MODULUS) by reflexivity.
  split; [exact H1|].
  apply (V1_refines_fifo RING_BUFFER_SIZE _ _ [] H1 H2); reflexivity.
Defined.

(** ** Init and clear *)

Lemma empty_state_facts N rb fuel :
  0 < N ->
  back rb = front rb ->
  V2.ring_buffer_empty rb = true /\
  V2.ring_buffer_count N rb = 0 /\
  V2.ring_buffer_full N rb = false /\
  V2.drain N fuel rb = Some ([], rb).
Proof.
  intros HN Heq.
  assert (He : V2.ring_buffer_empty rb = true)
    by (unfold V2.ring_buffer_empty; now apply Z.eqb_eq).
  assert (Hfull : V2.ring_buffer_full N rb = false).
  { unfold V2.ring_buffer_full. rewrite Heq, Z.sub_diag.
    apply Z.leb_gt. change (wrap 0) with 0. lia. }
  split; [exact He|]. split; [|split; [exact Hfull|]].
  - unfold V2.ring_buffer_count. rewrite Hfull, Heq, Z.sub_diag. reflexivity.
  - destruct fuel; simpl; now rewrite He.
Qed.

(** X14: init and clear both leave a buffer that reports empty, holds count 0,
    is not full and gives the drain loop nothing to print; init does not
    depend on the state it overwrites, and a second clear changes
    nothing. *)
Theorem init_and_clear_empty N rb :
  0 < N ->
  (V2.ring_buffer_init N rb = V2.fresh N /\
   V2.ring_buffer_empty (V2.ring_buffer_init N rb) = true /\
   V2.ring_buffer_count N (V2.ring_buffer_init N rb) = 0 /\
   V2.ring_buffer_full N (V2.ring_buffer_init N rb) = false /\
   V2.drain N (Z.to_nat N) (V2.ring_buffer_init N rb)
   = Some ([], V2.ring_buffer_init N rb)) /\
  (V2.ring_buffer_clear N (V2.ring_buffer_clear N rb)
   = V2.ring_buffer_clear N rb /\
   V2.ring_buffer_count N (V2.ring_buffer_clear N rb) = 0 /\
   V2.ring_buffer_full N (V2.ring_buffer_clear N rb) = false /\
   V2.drain N (Z.to_nat N) (V2.ring_buffer_clear N rb)
   = Some ([], V2.ring_buffer_clear N rb)).
Proof.
  intros HN. split.
  - split; [reflexivity|].
    now apply empty_state_facts.
  - split; [reflexivity|].
    now apply (empty_state_facts N (V2.ring_buffer_clear N rb)).
Qed.

Lemma init_and_clear_empty_witness :
  0 < RING_BUFFER_SIZE /\
  V2.ring_buffer_count RING_BUFFER_SIZE
    (V2.ring_buffer_clear RING_BUFFER_SIZE
       {| front := 0; back := 6; data := [40; 50; 60; 30] |}) = 0.
Proof.
  assert (H : 0 < RING_BUFFER_SIZE) by reflexivity.
  split; [exact H|].
  apply (init_and_clear_empty RING_BUFFER_SIZE
           {| front := 0; back := 6; data := [40; 50; 60; 30] |} H).
Defined.

(** ** The guard, once more *)

